(** * The root of a Zed lake: magic file, configuration stores, pool creation

    A shallow embedding of [lake/root.go] (package [lake]) and of
    [lake/pools/config.go] (package [pools]).  The Go code is a thin layer of
    control flow over collaborators that live in other packages: the storage
    engine, the ZNG reader and the serializer, the two journal-backed config
    stores, the per-pool functions of [lake/pool.go], the clock, the
    identifier generator and the ARC cache.  Those collaborators are the
    fields of the class [Collaborators]; every function of the two files is
    written over that interface, in a state-and-error monad that also records
    the sequence of collaborator calls. *)

From Stdlib Require Import ZArith String Ascii List DecimalString Lia.
From stdpp Require Import base option list strings.

Open Scope string_scope.
Open Scope Z_scope.

(** ** Go error values *)

(** The package-level error variables that [root.go] compares against or
    wraps.  A package-level variable has an identity: [err == ErrX] and
    [errors.Is(err, ErrX)] compare pointers, not texts. *)
Inductive sentinel : Type :=
| lake_ErrExist
| lake_ErrNotExist
| pools_ErrExists
| pools_ErrNotFound
| storage_ErrNotSupported
| fs_ErrNotExist.

#[global] Instance sentinel_eq_dec : EqDecision sentinel.
Proof. solve_decision. Defined.

(** An operand of [fmt.Errorf], tagged with the verb that consumes it:
    [%s], [%q], [%d] and [%w]. *)
Inductive fmtarg (E : Type) : Type :=
| ArgS (s : string)
| ArgQ (s : string)
| ArgD (z : Z)
| ArgW (e : E).

Arguments ArgS {E} s.
Arguments ArgQ {E} s.
Arguments ArgD {E} z.
Arguments ArgW {E} e.

(** An [error] is a package-level variable, the result of a call of
    [errors.New] (a fresh value, equal to no package-level variable), or the
    result of [fmt.Errorf]. *)
#[warnings="-register-all"]
Inductive error : Type :=
| Sentinel (s : sentinel)
| ErrorsNew (msg : string)
| Errorf (format : string) (args : list (fmtarg error)).

(** [err == target] for a package-level [target]. *)
Definition error_is_var (e : error) (target : sentinel) : bool :=
  match e with
  | Sentinel s => bool_decide (s = target)
  | _ => false
  end.

(** [errors.Is(err, target)]: [err] itself or an error it wraps with [%w]. *)
Fixpoint errors_Is (e : error) (target : sentinel) : bool :=
  match e with
  | Sentinel s => bool_decide (s = target)
  | ErrorsNew _ => false
  | Errorf _ args =>
      (fix wrapped (l : list (fmtarg error)) : bool :=
         match l with
         | [] => false
         | ArgW e' :: l' => errors_Is e' target || wrapped l'
         | _ :: l' => wrapped l'
         end) args
  end.

(** [fmt.Sprintf] on a format whose verbs are all of one letter, the operands
    already rendered: each verb consumes one operand, [%%] is a percent sign. *)
Fixpoint Sprintf (format : string) (args : list string) : string :=
  match format with
  | EmptyString => EmptyString
  | String c rest =>
      if Ascii.eqb c "%" then
        match rest with
        | String v rest' =>
            if Ascii.eqb v "%" then String "%" (Sprintf rest' args)
            else match args with
                 | a :: args' => a ++ Sprintf rest' args'
                 | [] => "%!" ++ String v ("(MISSING)" ++ Sprintf rest' [])
                 end
        | EmptyString => "%!(NOVERB)"
        end
      else String c (Sprintf rest args)
  end.

(** [%d] on an integer. *)
Definition itoa (z : Z) : string := NilZero.string_of_int (Z.to_int z).

(** The texts of the two error variables declared in [root.go]. *)
Definition lake_ErrExist_text : string := "lake already exists".
Definition lake_ErrNotExist_text : string := "lake does not exist".

Section ErrorText.

(** [strconv.Quote], which renders [%q], and the texts of the error variables
    of the other packages. *)
Variable strconv_Quote : string -> string.
Variable foreign_text : sentinel -> string.

Definition sentinel_text (s : sentinel) : string :=
  match s with
  | lake_ErrExist => lake_ErrExist_text
  | lake_ErrNotExist => lake_ErrNotExist_text
  | other => foreign_text other
  end.

(** The method [Error()] of an error value. *)
Fixpoint Error (e : error) : string :=
  match e with
  | Sentinel s => sentinel_text s
  | ErrorsNew msg => msg
  | Errorf format args =>
      Sprintf format
        ((fix render (l : list (fmtarg error)) : list string :=
            match l with
            | [] => []
            | a :: l' =>
                match a with
                | ArgS s => s
                | ArgQ s => strconv_Quote s
                | ArgD z => itoa z
                | ArgW e' => Error e'
                end :: render l'
            end) args)
  end.

End ErrorText.

(** ** Data *)

(** [storage.URI], as the string it prints to. *)
Definition URI : Type := string.

(** Modelled from the spec: [storage.URI.JoinPath] is declared in
    [pkg/storage]; the on-disk layout of the spec puts the magic file and the
    two journals one path segment below the root URI. *)
Definition JoinPath (u : URI) (elem : string) : URI := u ++ "/" ++ elem.

Arguments JoinPath : simpl never.

(** [ksuid.KSUID], a block of 20 bytes. *)
Definition KSUID : Type := string.

(** The constants of [root.go]. *)
Definition Version : Z := 3.
Definition PoolsTag : string := "pools".
Definition IndexRulesTag : string := "index_rules".
Definition LakeMagicFile : string := "lake.zng".
Definition LakeMagicString : string := "ZED LAKE".

Record LakeMagic : Type := mkLakeMagic {
  Magic : string;
  Version_ : Z
}.

(** [order.Which]. *)
Inductive Which : Type := Asc | Desc.

(** [order.SortKey]: a direction and a [field.List], a slice of field paths,
    each a slice of names.  [root.go] reads [sortKey.Keys]. *)
Record SortKey : Type := mkSortKey {
  Order : Which;
  Keys : list (list string)
}.

(** Modelled from the spec: [order.SortKey.IsNil] is declared in [order];
    a sort key is a tuple of field paths and directions, and the nil sort
    key is the one with no field path ([order.Nil], the zero value). *)
Definition IsNil (k : SortKey) : bool :=
  match Keys k with [] => true | _ => false end.

(** Modelled from the spec: [order.NewSortKey] is declared in [order]; it
    pairs a direction with the field paths. *)
Definition NewSortKey (o : Which) (keys : list (list string)) : SortKey :=
  mkSortKey o keys.

(** Modelled from the spec: [field.DottedList] is declared in [pkg/field];
    on a name without dot or comma it is the single one-segment path. *)
Definition DottedList_ts : list (list string) := [["ts"]].

(** [order.Nil], the zero value of [order.SortKey]. *)
Definition order_Nil : SortKey := mkSortKey Asc [].

(** [pools.Config]. *)
Record Config : Type := mkConfig {
  Ts : Z;
  Name : string;
  ID : KSUID;
  SortKey_ : SortKey;
  SeekStride : Z;
  Threshold : Z
}.

(** [Config.Key]. *)
Definition Key (p : Config) : string := Name p.

(** [lake.Pool]: the embedded [pools.Config], which [root.go] reads and
    overwrites, and the remaining fields, which it never touches. *)
Record Pool (I : Type) : Type := mkPool {
  Config_ : Config;
  internals : I
}.

Arguments mkPool {I} _ _.
Arguments Config_ {I} _.
Arguments internals {I} _.

(** The outcome of a Go function: it returns its value with a nil error, it
    returns a non-nil error, or it panics. *)
Inductive result (A : Type) : Type :=
| Ok (a : A)
| Err (e : error)
| Panic.

Arguments Ok {A} a.
Arguments Err {A} e.
Arguments Panic {A}.

(** ** The collaborators of [root.go] *)

(** Everything [root.go] calls outside of itself and of [pools.NewConfig].
    [World] is the state those calls act on: the object store behind
    [storage.Engine], with the journals and pool trees kept in it, the clock
    and the identifier source.  A call that can fail returns the Go error
    ([option error], [None] for [nil]) or the value or the error
    ([error + A]). *)
Class Collaborators : Type := {
  World : Type;
  Bytes : Type;
  zed_Value : Type;
  pools_Store : Type;
  index_Store : Type;
  Pool_internals : Type;
  Cache : Type;
  (* storage.Engine and storage.Put *)
  engine_Get : URI -> World -> (error + Bytes) * World;
  engine_PutIfNotExists : URI -> Bytes -> World -> option error * World;
  storage_Put : URI -> Bytes -> World -> option error * World;
  (* zngio.Reader over the content of an object: the results of the
     successive calls of Read; past the end Read returns (nil, nil) *)
  zngio_records : Bytes -> list (error + zed_Value);
  (* zson.UnmarshalZNG into a LakeMagic, zson.String *)
  zson_UnmarshalZNG : option zed_Value -> error + LakeMagic;
  zson_String : zed_Value -> string;
  (* zngbytes.Serializer: Write, Close, Bytes *)
  zngbytes_Serialize : LakeMagic -> error + Bytes;
  (* pools.Store and index.Store *)
  pools_CreateStore : URI -> World -> (error + pools_Store) * World;
  pools_OpenStore : URI -> World -> (error + pools_Store) * World;
  index_CreateStore : URI -> World -> (error + index_Store) * World;
  index_OpenStore : URI -> World -> (error + index_Store) * World;
  Store_All : pools_Store -> World -> (error + list Config) * World;
  Store_LookupByName : pools_Store -> string -> World -> option Config * World;
  Store_LookupByID : pools_Store -> KSUID -> World -> (error + Config) * World;
  Store_Add : pools_Store -> Config -> World -> option error * World;
  Store_Rename : pools_Store -> KSUID -> string -> World -> option error * World;
  (* the package-level CreatePool, OpenPool and RemovePool of pool.go *)
  lake_CreatePool : URI -> Config -> World -> option error * World;
  lake_OpenPool : URI -> Config -> World -> (error + Pool Pool_internals) * World;
  lake_RemovePool : URI -> Config -> World -> option error * World;
  (* nano.Now, ksuid.New *)
  nano_Now : World -> Z * World;
  ksuid_New : World -> KSUID * World;
  (* data.DefaultThreshold, data.DefaultSeekStride *)
  data_DefaultThreshold : Z;
  data_DefaultSeekStride : Z;
  (* lru.ARCCache[ksuid.KSUID, *Pool]; a *Pool is an address of the heap *)
  lru_empty : Z -> Cache;
  lru_Get : KSUID -> Cache -> option nat * Cache;
  lru_Add : KSUID -> nat -> Cache -> Cache;
  (* strconv.Quote and the texts of the foreign error variables *)
  strconv_Quote : string -> string;
  foreign_text : sentinel -> string
}.

Section Lake.

Context {C : Collaborators}.

(** [lake.Root].  The fields [engine] and [logger] are the world. *)
Record Root : Type := mkRoot {
  path : URI;
  poolCache : Cache;
  pools : option pools_Store;
  indexRules : option index_Store
}.

(** One call of a collaborator, with its operands. *)
Inductive event : Type :=
| EvGet (p : URI)
| EvPutIfNotExists (p : URI) (b : Bytes)
| EvPut (p : URI) (b : Bytes)
| EvPoolsCreateStore (p : URI)
| EvPoolsOpenStore (p : URI)
| EvIndexCreateStore (p : URI)
| EvIndexOpenStore (p : URI)
| EvAll
| EvLookupByName (name : string)
| EvLookupByID (id : KSUID)
| EvAdd (c : Config)
| EvRename (id : KSUID) (newName : string)
| EvCreatePool (root : URI) (c : Config)
| EvOpenPool (root : URI) (c : Config)
| EvRemovePool (root : URI) (c : Config)
| EvNow
| EvNewID.

(** The state of a run: the world, the Go heap (the [Root]s and the [Pool]s,
    a pointer being an index), and the calls made so far. *)
Record State : Type := mkState {
  world : World;
  roots : list Root;
  heap : list (Pool Pool_internals);
  trace : list event
}.

Definition M (A : Type) : Type := State -> result A * State.

Definition ret {A} (a : A) : M A := fun s => (Ok a, s).

Definition fail {A} (e : error) : M A := fun s => (Err e, s).

Definition panic {A} : M A := fun s => (Panic, s).

Definition bind {A B} (m : M A) (k : A -> M B) : M B :=
  fun s =>
    match m s with
    | (Ok a, s') => k a s'
    | (Err e, s') => (Err e, s')
    | (Panic, s') => (Panic, s')
    end.

(** [x, err := f(...)] without the [if err != nil { return err }]: the error
    becomes a value. *)
Definition catch {A} (m : M A) : M (error + A) :=
  fun s =>
    match m s with
    | (Ok a, s') => (Ok (inr a), s')
    | (Err e, s') => (Ok (inl e), s')
    | (Panic, s') => (Panic, s')
    end.

End Lake.

Declare Scope go_scope.
Delimit Scope go_scope with go.
Notation "x <- c ;; k" := (bind c (fun x => k))
  (at level 100, c at next level, right associativity) : go_scope.
Notation "c ;;; k" := (bind c (fun _ => k))
  (at level 100, right associativity) : go_scope.
Open Scope go_scope.

(** ** The state and the heap *)

Section Primitives.

Context {C : Collaborators}.

(** A call of a collaborator: the world moves on, the call is recorded. *)
Definition call {A} (ev : event) (f : World -> A * World) : M A :=
  fun s =>
    let (a, w) := f (world s) in
    (Ok a, mkState w (roots s) (heap s) (trace s ++ [ev])).

(** [if err != nil { return err }]. *)
Definition check (err : option error) : M unit :=
  match err with
  | None => ret tt
  | Some e => fail e
  end.

Definition unwrap {A} (res : error + A) : M A :=
  match res with
  | inr a => ret a
  | inl e => fail e
  end.

(** [&Root{...}], [*r] and [*r = R]. *)
Definition new_root (R : Root) : M nat :=
  fun s =>
    (Ok (length (roots s)),
     mkState (world s) (roots s ++ [R]) (heap s) (trace s)).

Definition load_root (r : nat) : M Root :=
  fun s =>
    match roots s !! r with
    | Some R => (Ok R, s)
    | None => (Panic, s)
    end.

Definition store_root (r : nat) (R : Root) : M unit :=
  fun s =>
    match roots s !! r with
    | Some _ => (Ok tt, mkState (world s) (<[r := R]> (roots s)) (heap s) (trace s))
    | None => (Panic, s)
    end.

(** The same for [*Pool]. *)
Definition new_pool (P : Pool Pool_internals) : M nat :=
  fun s =>
    (Ok (length (heap s)),
     mkState (world s) (roots s) (heap s ++ [P]) (trace s)).

Definition load_pool (p : nat) : M (Pool Pool_internals) :=
  fun s =>
    match heap s !! p with
    | Some P => (Ok P, s)
    | None => (Panic, s)
    end.

Definition store_pool (p : nat) (P : Pool Pool_internals) : M unit :=
  fun s =>
    match heap s !! p with
    | Some _ => (Ok tt, mkState (world s) (roots s) (<[p := P]> (heap s)) (trace s))
    | None => (Panic, s)
    end.

(** Assignments to the fields of [*r]. *)
Definition set_pools (r : nat) (v : option pools_Store) : M unit :=
  R <- load_root r ;;
  store_root r (mkRoot (path R) (poolCache R) v (indexRules R)).

Definition set_indexRules (r : nat) (v : option index_Store) : M unit :=
  R <- load_root r ;;
  store_root r (mkRoot (path R) (poolCache R) (pools R) v).

Definition set_poolCache (r : nat) (v : Cache) : M unit :=
  R <- load_root r ;;
  store_root r (mkRoot (path R) v (pools R) (indexRules R)).

(** [r.pools], followed by a method call: a nil store panics. *)
Definition the_pools (r : nat) : M pools_Store :=
  R <- load_root r ;;
  match pools R with
  | Some st => ret st
  | None => panic
  end.

(** The value a failed constructor leaves in its first result. *)
Definition value_or_nil {A} (res : error + A) : option A :=
  match res with
  | inr a => Some a
  | inl _ => None
  end.

(** [zngio.Reader.Read] on what is left of the stream. *)
Definition zr_Read (zr : list (error + zed_Value))
  : (error + option zed_Value) * list (error + zed_Value) :=
  match zr with
  | [] => (inr None, [])
  | inl e :: zr' => (inl e, zr')
  | inr v :: zr' => (inr (Some v), zr')
  end.

End Primitives.

(** ** [pools/config.go] *)

Section PoolsConfig.

Context {C : Collaborators}.

Definition NewConfig (name : string) (sortKey : SortKey) (thresh : Z)
  (seekStride : Z) : M Config :=
  let sortKey :=
    if IsNil sortKey then NewSortKey Desc DottedList_ts else sortKey in
  let thresh := if thresh =? 0 then data_DefaultThreshold else thresh in
  let seekStride :=
    if seekStride =? 0 then data_DefaultSeekStride else seekStride in
  ts <- call EvNow nano_Now ;;
  id <- call EvNewID ksuid_New ;;
  ret (mkConfig ts name id sortKey seekStride thresh).

End PoolsConfig.

(** ** [root.go] *)

Section RootGo.

Context {C : Collaborators}.

(** [lru.NewARC]: an error for a size that is not positive, else an empty
    cache of that size. *)
Definition lru_NewARC (size : Z) : error + Cache :=
  if size <=? 0 then inl (ErrorsNew "must provide a positive size")
  else inr (lru_empty size).

Definition newRoot (path : URI) : M nat :=
  match lru_NewARC 1024 with
  | inl _ => panic
  | inr poolCache => new_root (mkRoot path poolCache None None)
  end.

Definition readLakeMagic (r : nat) : M unit :=
  R <- load_root r ;;
  let path := JoinPath (path R) LakeMagicFile in
  got <- call (EvGet path) (engine_Get path) ;;
  reader <- unwrap got ;;
  let zr := zngio_records reader in
  let (first, zr) := zr_Read zr in
  val <- unwrap first ;;
  let (second, zr) := zr_Read zr in
  last <- unwrap second ;;
  match last with
  | Some v =>
      fail (Errorf "corrupt lake version file: more than one Zed value at %s"
              [ArgS (zson_String v)])
  | None =>
      match zson_UnmarshalZNG val with
      | inl err => fail (Errorf "corrupt lake version file: %w" [ArgW err])
      | inr magic =>
          if negb (String.eqb (Magic magic) LakeMagicString) then
            fail (Errorf "corrupt lake version file: magic %q should be %q"
                    [ArgQ (Magic magic); ArgQ LakeMagicString])
          else if negb (Version_ magic =? Version) then
            fail (Errorf
                    "unsupported lake version: found version %d while expecting %d"
                    [ArgD (Version_ magic); ArgD Version])
          else ret tt
      end
  end.

Definition writeLakeMagic (r : nat) : M unit :=
  res <- catch (readLakeMagic r) ;;
  match res with
  | inr _ => fail (ErrorsNew "lake already exists")
  | inl _ =>
      let magic := mkLakeMagic LakeMagicString Version in
      match zngbytes_Serialize magic with
      | inl err => fail err
      | inr bytes =>
          R <- load_root r ;;
          let path := JoinPath (path R) LakeMagicFile in
          err <- call (EvPutIfNotExists path bytes)
                   (engine_PutIfNotExists path bytes) ;;
          err <- match err with
                 | Some e =>
                     if error_is_var e storage_ErrNotSupported then
                       call (EvPut path bytes) (storage_Put path bytes)
                     else ret err
                 | None => ret err
                 end ;;
          check err
      end
  end.

Definition createConfig (r : nat) : M unit :=
  R <- load_root r ;;
  let poolPath := JoinPath (path R) PoolsTag in
  let rulesPath := JoinPath (path R) IndexRulesTag in
  res <- call (EvPoolsCreateStore poolPath) (pools_CreateStore poolPath) ;;
  set_pools r (value_or_nil res) ;;;
  match res with
  | inl err => fail err
  | inr _ =>
      res <- call (EvIndexCreateStore rulesPath) (index_CreateStore rulesPath) ;;
      set_indexRules r (value_or_nil res) ;;;
      match res with
      | inl err => fail err
      | inr _ => writeLakeMagic r
      end
  end.

Definition loadConfig (r : nat) : M unit :=
  readLakeMagic r ;;;
  R <- load_root r ;;
  let poolPath := JoinPath (path R) PoolsTag in
  let rulesPath := JoinPath (path R) IndexRulesTag in
  res <- call (EvPoolsOpenStore poolPath) (pools_OpenStore poolPath) ;;
  set_pools r (value_or_nil res) ;;;
  match res with
  | inl err => fail err
  | inr _ =>
      res <- call (EvIndexOpenStore rulesPath) (index_OpenStore rulesPath) ;;
      set_indexRules r (value_or_nil res) ;;;
      match res with
      | inl err => fail err
      | inr _ => ret tt
      end
  end.

Definition Open (path : URI) : M nat :=
  r <- newRoot path ;;
  res <- catch (loadConfig r) ;;
  match res with
  | inl err =>
      if errors_Is err fs_ErrNotExist then
        fail (Errorf "%s: %w" [ArgS path; ArgW (Sentinel lake_ErrNotExist)])
      else fail err
  | inr _ => ret r
  end.

Definition Create (path : URI) : M nat :=
  r <- newRoot path ;;
  res <- catch (loadConfig r) ;;
  match res with
  | inr _ => fail (Errorf "%s: %w" [ArgS path; ArgW (Sentinel lake_ErrExist)])
  | inl _ => createConfig r ;;; ret r
  end.

Definition CreateOrOpen (path : URI) : M nat :=
  res <- catch (Open path) ;;
  match res with
  | inl err =>
      if errors_Is err lake_ErrNotExist then Create path else fail err
  | inr r => ret r
  end.

Definition ListPools (r : nat) : M (list Config) :=
  st <- the_pools r ;;
  res <- call EvAll (Store_All st) ;;
  unwrap res.

Definition openPool (r : nat) (config : Config) : M nat :=
  R <- load_root r ;;
  let (hit, cache) := lru_Get (ID config) (poolCache R) in
  set_poolCache r cache ;;;
  match hit with
  | Some p =>
      P <- load_pool p ;;
      p' <- new_pool P ;;
      store_pool p' (mkPool config (internals P)) ;;;
      ret p'
  | None =>
      res <- call (EvOpenPool (path R) config) (lake_OpenPool (path R) config) ;;
      P <- unwrap res ;;
      p <- new_pool P ;;
      R <- load_root r ;;
      set_poolCache r (lru_Add (ID config) p (poolCache R)) ;;;
      ret p
  end.

Definition OpenPool (r : nat) (id : KSUID) : M nat :=
  st <- the_pools r ;;
  res <- call (EvLookupByID id) (Store_LookupByID st id) ;;
  config <- unwrap res ;;
  openPool r config.

Definition RenamePool (r : nat) (id : KSUID) (newName : string) : M unit :=
  st <- the_pools r ;;
  err <- call (EvRename id newName) (Store_Rename st id newName) ;;
  check err.

Definition CreatePool (r : nat) (name : string) (sortKey : SortKey)
  (seekStride : Z) (thresh : Z) : M nat :=
  if String.eqb name "HEAD" then
    fail (Errorf "pool cannot be named %q" [ArgQ name])
  else
    st <- the_pools r ;;
    found <- call (EvLookupByName name) (Store_LookupByName st name) ;;
    match found with
    | Some _ => fail (Errorf "%s: %w" [ArgS name; ArgW (Sentinel pools_ErrExists)])
    | None =>
        let thresh := if thresh =? 0 then data_DefaultThreshold else thresh in
        if (1 <? Z.of_nat (length (Keys sortKey))) then
          fail (ErrorsNew "multiple pool keys not supported")
        else
          config <- NewConfig name sortKey thresh seekStride ;;
          R <- load_root r ;;
          err <- call (EvCreatePool (path R) config)
                   (lake_CreatePool (path R) config) ;;
          check err ;;;
          res <- catch (openPool r config) ;;
          match res with
          | inl err =>
              call (EvRemovePool (path R) config)
                (lake_RemovePool (path R) config) ;;;
              fail err
          | inr pool =>
              st <- the_pools r ;;
              err <- call (EvAdd config) (Store_Add st config) ;;
              match err with
              | Some e =>
                  call (EvRemovePool (path R) config)
                    (lake_RemovePool (path R) config) ;;;
                  fail e
              | None => ret pool
              end
          end
    end.

End RootGo.

(** ** An in-memory lake *)

(** A concrete set of collaborators, on which the functions above run:
    an object store kept in a list, one pools journal, one index-rules
    journal, the pool trees, a counter for the clock and one for the
    identifiers.  Faults can be planted in the calls that [CreatePool] undoes. *)
Module Mem.

(** A top-level value of a ZNG stream: a record with the two fields of the
    magic record, or any other value. *)
Inductive value : Type :=
| VMagic (magic : string) (version : Z)
| VOther (text : string).

Record memory : Type := mkMemory {
  objects : list (URI * list (error + value));
  conditional_put : bool;
  pools_journal : option (list Config);
  rules_journal : bool;
  pool_trees : list KSUID;
  open_fault : option error;
  add_fault : option error;
  remove_fault : option error;
  clock : Z;
  next_id : Z
}.

Definition with_objects (w : memory) (o : list (URI * list (error + value))) : memory :=
  mkMemory o (conditional_put w) (pools_journal w) (rules_journal w)
    (pool_trees w) (open_fault w) (add_fault w) (remove_fault w) (clock w)
    (next_id w).

Definition with_pools (w : memory) (j : option (list Config)) : memory :=
  mkMemory (objects w) (conditional_put w) j (rules_journal w)
    (pool_trees w) (open_fault w) (add_fault w) (remove_fault w) (clock w)
    (next_id w).

Definition with_rules (w : memory) (j : bool) : memory :=
  mkMemory (objects w) (conditional_put w) (pools_journal w) j
    (pool_trees w) (open_fault w) (add_fault w) (remove_fault w) (clock w)
    (next_id w).

Definition with_trees (w : memory) (t : list KSUID) : memory :=
  mkMemory (objects w) (conditional_put w) (pools_journal w) (rules_journal w)
    t (open_fault w) (add_fault w) (remove_fault w) (clock w) (next_id w).

Fixpoint find_object (p : URI) (o : list (URI * list (error + value)))
  : option (list (error + value)) :=
  match o with
  | [] => None
  | (q, b) :: o' => if String.eqb p q then Some b else find_object p o'
  end.

(** Modelled from the spec: the object store adapter of section 4.1.  [Get]
    of a missing object fails with [fs.ErrNotExist]. *)
Definition Get (p : URI) (w : memory) : (error + list (error + value)) * memory :=
  match find_object p (objects w) with
  | Some b => (inr b, w)
  | None => (inl (Sentinel fs_ErrNotExist), w)
  end.

Definition ErrAlreadyExists : error := ErrorsNew "object already exists".

(** Modelled from the spec: [PutIfNotExists] fails when the object exists,
    and reports [NotSupported] on a backend without conditional put. *)
Definition PutIfNotExists (p : URI) (b : list (error + value)) (w : memory)
  : option error * memory :=
  if conditional_put w then
    match find_object p (objects w) with
    | Some _ => (Some ErrAlreadyExists, w)
    | None => (None, with_objects w ((p, b) :: objects w))
    end
  else (Some (Sentinel storage_ErrNotSupported), w).

Definition Put (p : URI) (b : list (error + value)) (w : memory)
  : option error * memory :=
  (None, with_objects w ((p, b) :: objects w)).

Definition UnmarshalZNG (v : option value) : error + LakeMagic :=
  match v with
  | Some (VMagic m n) => inr (mkLakeMagic m n)
  | Some (VOther _) => inl (ErrorsNew "not a record of magic and version")
  | None => inl (ErrorsNew "no value")
  end.

Definition String_ (v : value) : string :=
  match v with
  | VMagic m n => "{magic:" ++ m ++ ",version:" ++ itoa n ++ "}"
  | VOther t => t
  end.

Definition Serialize (m : LakeMagic) : error + list (error + value) :=
  inr [inr (VMagic (Magic m) (Version_ m))].

(** Modelled from the spec: the config stores of section 4.3, as the list of
    the live entries of the journal. *)
Definition CreatePoolsStore (p : URI) (w : memory) : (error + unit) * memory :=
  match pools_journal w with
  | Some _ => (inl (ErrorsNew "journal already exists"), w)
  | None => (inr tt, with_pools w (Some []))
  end.

Definition OpenPoolsStore (p : URI) (w : memory) : (error + unit) * memory :=
  match pools_journal w with
  | Some _ => (inr tt, w)
  | None => (inl (Sentinel fs_ErrNotExist), w)
  end.

Definition CreateRulesStore (p : URI) (w : memory) : (error + unit) * memory :=
  if rules_journal w then (inl (ErrorsNew "journal already exists"), w)
  else (inr tt, with_rules w true).

Definition OpenRulesStore (p : URI) (w : memory) : (error + unit) * memory :=
  if rules_journal w then (inr tt, w)
  else (inl (Sentinel fs_ErrNotExist), w).

Definition entries (w : memory) : list Config :=
  match pools_journal w with
  | Some l => l
  | None => []
  end.

Definition by_name (n : string) (l : list Config) : option Config :=
  List.find (fun c => String.eqb (Name c) n) l.

Definition by_id (id : KSUID) (l : list Config) : option Config :=
  List.find (fun c => String.eqb (ID c) id) l.

Definition All (st : unit) (w : memory) : (error + list Config) * memory :=
  (inr (entries w), w).

Definition LookupByName (st : unit) (n : string) (w : memory)
  : option Config * memory :=
  (by_name n (entries w), w).

Definition LookupByID (st : unit) (id : KSUID) (w : memory)
  : (error + Config) * memory :=
  match by_id id (entries w) with
  | Some c => (inr c, w)
  | None => (inl (Errorf "%s: %w" [ArgS id; ArgW (Sentinel pools_ErrNotFound)]), w)
  end.

(** [Add] fails with [Exists] on a live key, and with the planted fault. *)
Definition Add (st : unit) (c : Config) (w : memory) : option error * memory :=
  match add_fault w with
  | Some e => (Some e, w)
  | None =>
      match by_name (Key c) (entries w) with
      | Some _ => (Some (Sentinel pools_ErrExists), w)
      | None => (None, with_pools w (Some (entries w ++ [c])%list))
      end
  end.

Definition rename (id : KSUID) (n : string) (c : Config) : Config :=
  if String.eqb (ID c) id then
    mkConfig (Ts c) n (ID c) (SortKey_ c) (SeekStride c) (Threshold c)
  else c.

Definition Rename (st : unit) (id : KSUID) (n : string) (w : memory)
  : option error * memory :=
  match by_id id (entries w) with
  | None => (Some (Sentinel pools_ErrNotFound), w)
  | Some _ =>
      match by_name n (entries w) with
      | Some _ => (Some (Sentinel pools_ErrExists), w)
      | None => (None, with_pools w (Some (map (rename id n) (entries w))))
      end
  end.

(** Modelled from the spec: a pool owns the tree below its identifier. *)
Definition has_tree (id : KSUID) (w : memory) : bool :=
  existsb (String.eqb id) (pool_trees w).

Definition CreateTree (root : URI) (c : Config) (w : memory)
  : option error * memory :=
  if has_tree (ID c) w then (Some (ErrorsNew "pool tree already exists"), w)
  else (None, with_trees w (ID c :: pool_trees w)).

Definition OpenTree (root : URI) (c : Config) (w : memory)
  : (error + Pool unit) * memory :=
  match open_fault w with
  | Some e => (inl e, w)
  | None =>
      if has_tree (ID c) w then (inr (mkPool c tt), w)
      else (inl (Sentinel fs_ErrNotExist), w)
  end.

Definition RemoveTree (root : URI) (c : Config) (w : memory)
  : option error * memory :=
  match remove_fault w with
  | Some e => (Some e, w)
  | None =>
      (None,
       with_trees w (filter (fun id => negb (String.eqb id (ID c))) (pool_trees w)))
  end.

Definition Now (w : memory) : Z * memory :=
  (clock w,
   mkMemory (objects w) (conditional_put w) (pools_journal w) (rules_journal w)
     (pool_trees w) (open_fault w) (add_fault w) (remove_fault w)
     (clock w + 1) (next_id w)).

Definition NewID (w : memory) : KSUID * memory :=
  ("id" ++ itoa (next_id w),
   mkMemory (objects w) (conditional_put w) (pools_journal w) (rules_journal w)
     (pool_trees w) (open_fault w) (add_fault w) (remove_fault w)
     (clock w) (next_id w + 1)).

(** The cache, as an association list without eviction. *)
Definition cache : Type := list (KSUID * nat).

Fixpoint cache_get (k : KSUID) (c : cache) : option nat :=
  match c with
  | [] => None
  | (k', p) :: c' => if String.eqb k k' then Some p else cache_get k c'
  end.

Definition quote (s : string) : string :=
  String (ascii_of_nat 34) (s ++ String (ascii_of_nat 34) EmptyString).

Definition text (s : sentinel) : string :=
  match s with
  | pools_ErrExists => "pool already exists"
  | pools_ErrNotFound => "pool not found"
  | storage_ErrNotSupported => "method not supported"
  | fs_ErrNotExist => "file does not exist"
  | _ => EmptyString
  end.

#[export] Instance collaborators : Collaborators := {|
  World := memory;
  Bytes := list (error + value);
  zed_Value := value;
  pools_Store := unit;
  index_Store := unit;
  Pool_internals := unit;
  Cache := cache;
  engine_Get := Get;
  engine_PutIfNotExists := PutIfNotExists;
  storage_Put := Put;
  zngio_records := fun b => b;
  zson_UnmarshalZNG := UnmarshalZNG;
  zson_String := String_;
  zngbytes_Serialize := Serialize;
  pools_CreateStore := CreatePoolsStore;
  pools_OpenStore := OpenPoolsStore;
  index_CreateStore := CreateRulesStore;
  index_OpenStore := OpenRulesStore;
  Store_All := All;
  Store_LookupByName := LookupByName;
  Store_LookupByID := LookupByID;
  Store_Add := Add;
  Store_Rename := Rename;
  lake_CreatePool := CreateTree;
  lake_OpenPool := OpenTree;
  lake_RemovePool := RemoveTree;
  nano_Now := Now;
  ksuid_New := NewID;
  data_DefaultThreshold := 524288000;
  data_DefaultSeekStride := 65536;
  lru_empty := fun _ => [];
  lru_Get := fun k c => (cache_get k c, c);
  lru_Add := fun k p c => (k, p) :: c;
  strconv_Quote := quote;
  foreign_text := text
|}.

(** The world before any lake is created, and a state around a world. *)
Definition empty : memory :=
  mkMemory [] true None false [] None None None 1000 0.

Definition start (w : memory) : State := mkState w [] [] [].

(** A world whose magic file at [lake/lake.zng] has the given content, with
    both journals in place. *)
Definition lake_with_magic (b : list (error + value)) : memory :=
  mkMemory [("lake/lake.zng", b)] true (Some []) true [] None None None 1000 0.

End Mem.

(** ** Expressions of [root.go] that the statements name *)

(** The error of the version check of [readLakeMagic]. *)
Definition errUnsupportedVersion (found : Z) : error :=
  Errorf "unsupported lake version: found version %d while expecting %d"
    [ArgD found; ArgD Version].

(** The error of the magic check of [readLakeMagic]. *)
Definition errBadMagic (found : string) : error :=
  Errorf "corrupt lake version file: magic %q should be %q"
    [ArgQ found; ArgQ LakeMagicString].

(** The error of [readLakeMagic] on a second value. *)
Definition errSecondValue (shown : string) : error :=
  Errorf "corrupt lake version file: more than one Zed value at %s"
    [ArgS shown].

(** The error of the name check of [CreatePool]. *)
Definition errReservedName (name : string) : error :=
  Errorf "pool cannot be named %q" [ArgQ name].

(** The error of [CreatePool] on a name that is taken. *)
Definition errPoolExists (name : string) : error :=
  Errorf "%s: %w" [ArgS name; ArgW (Sentinel pools_ErrExists)].

(** The error of the key check of [CreatePool]. *)
Definition errMultipleKeys : error :=
  ErrorsNew "multiple pool keys not supported".

(** The sort key [NewConfig] puts in place of a nil one. *)
Definition ts_desc : SortKey := NewSortKey Desc DottedList_ts.

(** The index of the first event of a trace that satisfies a test. *)
Fixpoint position {E : Type} (test : E -> bool) (tr : list E) : option nat :=
  match tr with
  | [] => None
  | ev :: tr' =>
      if test ev then Some O
      else match position test tr' with
           | Some n => Some (S n)
           | None => None
           end
  end.

Section Events.

Context {C : Collaborators}.

(** A write of the object at [p], conditional or not. *)
Definition writes (p : URI) (ev : event) : bool :=
  match ev with
  | EvPutIfNotExists q _ | EvPut q _ => String.eqb p q
  | _ => false
  end.

Definition creates_pools_store (ev : event) : bool :=
  match ev with
  | EvPoolsCreateStore _ => true
  | _ => false
  end.

Definition creates_rules_store (ev : event) : bool :=
  match ev with
  | EvIndexCreateStore _ => true
  | _ => false
  end.

Definition adds_entry (ev : event) : bool :=
  match ev with
  | EvAdd _ => true
  | _ => false
  end.

Definition removes_pool (ev : event) : bool :=
  match ev with
  | EvRemovePool _ _ => true
  | _ => false
  end.

(** What [LookupByName] finds for [name] in a world. *)
Definition finds (st : pools_Store) (name : string) (w : World) : option Config :=
  fst (Store_LookupByName st name w).

(** A collaborator call that does not bring an entry for [name] into the
    pools store. *)
Definition keeps_absent {A} (st : pools_Store) (name : string)
  (f : World -> A * World) : Prop :=
  forall w, finds st name w = None -> finds st name (snd (f w)) = None.

(** The pool listing is isolated from the calls [CreatePool] makes besides a
    successful [Add]: a lookup, the clock, the identifier source, the three
    functions that work on the tree of one pool, and an [Add] that fails,
    leave a missing name missing. *)
Definition listing_isolated (st : pools_Store) (name : string) (root : URI) : Prop :=
  keeps_absent st name (Store_LookupByName st name) /\
  keeps_absent st name nano_Now /\
  keeps_absent st name ksuid_New /\
  (forall c, keeps_absent st name (lake_CreatePool root c)) /\
  (forall c, keeps_absent st name (lake_OpenPool root c)) /\
  (forall c, keeps_absent st name (lake_RemovePool root c)) /\
  (forall c w e w', Store_Add st c w = (Some e, w') ->
     finds st name w = None -> finds st name w' = None).

End Events.

(** ** The rest of [root.go] *)

(** The collaborators of the functions of [root.go] that the sections above
    leave out: the parser and the printer of identifiers, the removal side of
    the pools store and of the cache, the index-rules store, the marshaler of
    configs and the expression filter. *)
Class MoreCollaborators {C : Collaborators} : Type := {
  (* ksuid.Parse and KSUID.String *)
  ksuid_Parse : string -> error + KSUID;
  ksuid_String : KSUID -> string;
  (* pools.Store.Remove and lru.ARCCache.Remove *)
  Store_Remove : pools_Store -> Config -> World -> option error * World;
  lru_Remove : KSUID -> Cache -> Cache;
  (* index.Rule and index.Store *)
  index_Rule : Type;
  index_Add : index_Store -> index_Rule -> World -> option error * World;
  index_Delete : index_Store -> KSUID -> World -> (error + index_Rule) * World;
  index_LookupByRef :
    index_Store -> string -> World -> (error + list index_Rule) * World;
  index_All : index_Store -> World -> (error + list index_Rule) * World;
  (* zson.MarshalZNGContext.Marshal on a config *)
  zson_Marshal : Config -> error + zed_Value
}.

(** [dag.Op], with the operators that [Root.SortKey] tells apart and the
    fields it reads. *)
Inductive dag_Op : Type :=
| Lister (Pool_ : KSUID)
| SeqScan (Pool_ : KSUID)
| PoolScan (ID_ : KSUID)
| CommitMetaScan (Pool_ : KSUID) (Tap : bool)
| OtherOp.

Section RootGoMore.

Context {C : Collaborators} {X : MoreCollaborators}.

(** A call of a collaborator that has no event of its own: the world moves
    on, the trace stays. *)
Definition effect {A} (f : World -> A * World) : M A :=
  fun s =>
    let (a, w) := f (world s) in
    (Ok a, mkState w (roots s) (heap s) (trace s)).

(** [r.indexRules], followed by a method call: a nil store panics. *)
Definition the_indexRules (r : nat) : M index_Store :=
  R <- load_root r ;;
  match indexRules R with
  | Some st => ret st
  | None => panic
  end.

Definition PoolID (r : nat) (poolName : string) : M KSUID :=
  if String.eqb poolName "" then fail (ErrorsNew "no pool name given")
  else
    match ksuid_Parse poolName with
    | inr poolID => ret poolID
    | inl _ =>
        st <- the_pools r ;;
        poolRef <- call (EvLookupByName poolName)
                     (Store_LookupByName st poolName) ;;
        match poolRef with
        | None =>
            fail (Errorf "%s: %w"
                    [ArgS poolName; ArgW (Sentinel pools_ErrNotFound)])
        | Some c => ret (ID c)
        end
    end.

(** The arm that the four cases of [Root.SortKey] share: the sort key of the
    config of the pool, and [order.Nil] when the lookup fails. *)
Definition sortKeyOf (r : nat) (id : KSUID) : M SortKey :=
  st <- the_pools r ;;
  res <- call (EvLookupByID id) (Store_LookupByID st id) ;;
  match res with
  | inr config => ret (SortKey_ config)
  | inl _ => ret order_Nil
  end.

(** [Root.SortKey]. *)
Definition Root_SortKey (r : nat) (src : dag_Op) : M SortKey :=
  match src with
  | Lister id => sortKeyOf r id
  | SeqScan id => sortKeyOf r id
  | PoolScan id => sortKeyOf r id
  | CommitMetaScan id tap => if tap then sortKeyOf r id else ret order_Nil
  | OtherOp => ret order_Nil
  end.

(** [Root.RemovePool]. *)
Definition RemovePool (r : nat) (id : KSUID) : M unit :=
  st <- the_pools r ;;
  res <- call (EvLookupByID id) (Store_LookupByID st id) ;;
  config <- unwrap res ;;
  st <- the_pools r ;;
  err <- effect (Store_Remove st config) ;;
  check err ;;;
  R <- load_root r ;;
  set_poolCache r (lru_Remove (ID config) (poolCache R)) ;;;
  R <- load_root r ;;
  err <- call (EvRemovePool (path R) config)
           (lake_RemovePool (path R) config) ;;
  check err.

Fixpoint AddIndexRules (r : nat) (rules : list index_Rule) : M unit :=
  match rules with
  | [] => ret tt
  | rule :: rules' =>
      st <- the_indexRules r ;;
      err <- effect (index_Add st rule) ;;
      check err ;;;
      AddIndexRules r rules'
  end.



(** The loop of [LookupIndexRules]. *)
Fixpoint LookupIndexRules_loop (r : nat) (refs : list string)
  (rules : list index_Rule) : M (list index_Rule) :=
  match refs with
  | [] => ret rules
  | ref :: refs' =>
      st <- the_indexRules r ;;
      res <- effect (index_LookupByRef st ref) ;;
      found <- unwrap res ;;
      LookupIndexRules_loop r refs' (rules ++ found)
  end.

Definition LookupIndexRules (r : nat) (refs : list string)
  : M (list index_Rule) :=
  LookupIndexRules_loop r refs [].

Definition AllIndexRules (r : nat) : M (list index_Rule) :=
  st <- the_indexRules r ;;
  res <- effect (index_All st) ;;
  unwrap res.

(** The loop of [BatchifyPools]; [f] stands for the call
    [filter(zctx, ectx.Reset(), rec, f)] on the marshaled config. *)
Fixpoint BatchifyPools_loop (f : zed_Value -> bool) (pools : list Config)
  (vals : list zed_Value) : M (list zed_Value) :=
  match pools with
  | [] => ret vals
  | c :: pools' =>
      match zson_Marshal c with
      | inl err => fail err
      | inr rec =>
          BatchifyPools_loop f pools' (if f rec then vals ++ [rec] else vals)
      end
  end.

Definition BatchifyPools (r : nat) (f : zed_Value -> bool)
  : M (list zed_Value) :=
  pools <- ListPools r ;;
  BatchifyPools_loop f pools [].

End RootGoMore.

(** ** Call sequences that the statements name *)

Section Sequences.

Context {C : Collaborators}.

(** The calls of [loadConfig] on a lake at [path0], in the order of the
    code. *)
Definition load_calls (path0 : URI) : list event :=
  [EvGet (JoinPath path0 LakeMagicFile);
   EvPoolsOpenStore (JoinPath path0 PoolsTag);
   EvIndexOpenStore (JoinPath path0 IndexRulesTag)].

(** The calls of [writeLakeMagic]: the read of the magic file, and the two
    writes of the serialized magic record when there is one. *)
Definition write_calls (path0 : URI) : list event :=
  EvGet (JoinPath path0 LakeMagicFile) ::
  match zngbytes_Serialize (mkLakeMagic LakeMagicString Version) with
  | inr b =>
      [EvPutIfNotExists (JoinPath path0 LakeMagicFile) b;
       EvPut (JoinPath path0 LakeMagicFile) b]
  | inl _ => []
  end.

(** The calls of [createConfig]. *)
Definition create_calls (path0 : URI) : list event :=
  EvPoolsCreateStore (JoinPath path0 PoolsTag) ::
  EvIndexCreateStore (JoinPath path0 IndexRulesTag) ::
  write_calls path0.

(** The error [Open] makes of an error that wraps [fs.ErrNotExist], and the
    error [Create] makes of a lake that loads. *)
Definition errLakeNotExist (path0 : URI) : error :=
  Errorf "%s: %w" [ArgS path0; ArgW (Sentinel lake_ErrNotExist)].

Definition errLakeExists (path0 : URI) : error :=
  Errorf "%s: %w" [ArgS path0; ArgW (Sentinel lake_ErrExist)].

(** The error of [PoolID] on a name that the pools store does not have. *)
Definition errPoolNotFound (name : string) : error :=
  Errorf "%s: %w" [ArgS name; ArgW (Sentinel pools_ErrNotFound)].


End Sequences.

(** ** An in-memory lake with index rules *)

(** The in-memory lake of [Mem], with a journal of index rules beside it;
    the fault planted for [Add] is the fault of every write to the pools
    journal. *)
Module MemX.

Import Mem.

Record rule : Type := mkRule {
  rule_id : KSUID;
  rule_name : string
}.

Definition lake : Type := (memory * list rule)%type.

Definition lift {A} (f : memory -> A * memory) (l : lake) : A * lake :=
  let (a, m) := f (fst l) in (a, (m, snd l)).

#[export] Instance collaborators : Collaborators := {|
  World := lake;
  Bytes := list (error + value);
  zed_Value := value;
  pools_Store := unit;
  index_Store := unit;
  Pool_internals := unit;
  Cache := cache;
  engine_Get := fun p => lift (Get p);
  engine_PutIfNotExists := fun p b => lift (PutIfNotExists p b);
  storage_Put := fun p b => lift (Put p b);
  zngio_records := fun b => b;
  zson_UnmarshalZNG := UnmarshalZNG;
  zson_String := String_;
  zngbytes_Serialize := Serialize;
  pools_CreateStore := fun p => lift (CreatePoolsStore p);
  pools_OpenStore := fun p => lift (OpenPoolsStore p);
  index_CreateStore := fun p => lift (CreateRulesStore p);
  index_OpenStore := fun p => lift (OpenRulesStore p);
  Store_All := fun st => lift (All st);
  Store_LookupByName := fun st n => lift (LookupByName st n);
  Store_LookupByID := fun st id => lift (LookupByID st id);
  Store_Add := fun st c => lift (Add st c);
  Store_Rename := fun st id n => lift (Rename st id n);
  lake_CreatePool := fun root c => lift (CreateTree root c);
  lake_OpenPool := fun root c => lift (OpenTree root c);
  lake_RemovePool := fun root c => lift (RemoveTree root c);
  nano_Now := lift Now;
  ksuid_New := lift NewID;
  data_DefaultThreshold := 524288000;
  data_DefaultSeekStride := 65536;
  lru_empty := fun _ => [];
  lru_Get := fun k c => (cache_get k c, c);
  lru_Add := fun k p c => (k, p) :: c;
  strconv_Quote := quote;
  foreign_text := text
|}.

(** The identifiers of this lake are the strings that begin with "id". *)
Definition Parse (s : string) : error + KSUID :=
  if String.prefix "id" s then inr s else inl (ErrorsNew "invalid identifier").

(** Modelled from the spec: [Delete] of the config stores fails with
    [NotFound] on a key that is not live. *)
Definition Remove (st : unit) (c : Config) (m : memory) : option error * memory :=
  match add_fault m with
  | Some e => (Some e, m)
  | None =>
      match by_name (Key c) (entries m) with
      | None => (Some (Sentinel pools_ErrNotFound), m)
      | Some _ =>
          (None,
           with_pools m
             (Some (filter (fun c' => negb (String.eqb (Name c') (Key c)))
                      (entries m))))
      end
  end.

Definition cache_remove (k : KSUID) (c : cache) : cache :=
  filter (fun e => negb (String.eqb (fst e) k)) c.

Definition has_rule (id : KSUID) (l : list rule) : bool :=
  existsb (fun x => String.eqb (rule_id x) id) l.

Definition ErrRuleExists : error := ErrorsNew "rule already exists".

Definition ErrNoSuchRule : error := ErrorsNew "no such rule".

Definition AddRule (st : unit) (x : rule) (l : lake) : option error * lake :=
  if has_rule (rule_id x) (snd l) then (Some ErrRuleExists, l)
  else (None, (fst l, (snd l ++ [x])%list)).

Definition DeleteRule (st : unit) (id : KSUID) (l : lake)
  : (error + rule) * lake :=
  match List.find (fun x => String.eqb (rule_id x) id) (snd l) with
  | Some x =>
      (inr x,
       (fst l, filter (fun y => negb (String.eqb (rule_id y) id)) (snd l)))
  | None => (inl ErrNoSuchRule, l)
  end.

Definition LookupRules (st : unit) (ref : string) (l : lake)
  : (error + list rule) * lake :=
  match filter (fun x => String.eqb (rule_name x) ref) (snd l) with
  | [] => (inl ErrNoSuchRule, l)
  | found => (inr found, l)
  end.

Definition AllRules (st : unit) (l : lake) : (error + list rule) * lake :=
  (inr (snd l), l).

(** A config is marshaled to a value that shows its name; the empty name
    stands for a config that cannot be marshaled. *)
Definition Marshal (c : Config) : error + value :=
  if String.eqb (Name c) "" then inl (ErrorsNew "cannot marshal")
  else inr (VOther (Name c)).

#[export] Instance more : MoreCollaborators := {|
  ksuid_Parse := Parse;
  ksuid_String := fun id => id;
  Store_Remove := fun st c => lift (Remove st c);
  lru_Remove := cache_remove;
  index_Rule := rule;
  index_Add := AddRule;
  index_Delete := DeleteRule;
  index_LookupByRef := LookupRules;
  index_All := AllRules;
  zson_Marshal := Marshal
|}.

(** States around a lake. *)
Definition start (l : lake) : State := mkState l [] [] [].

(** No lake yet; a lake created at "lake"; then the pools "a" and "b". *)
Definition fresh : State := start (empty, []).

Definition created : State := snd (Create "lake" fresh).

Definition with_a : State := snd (CreatePool 0 "a" order_Nil 0 0 created).

Definition with_a_b : State := snd (CreatePool 0 "b" order_Nil 0 0 with_a).

(** Two index rules of one name, and one of another. *)
Definition rule1 : rule := mkRule "id7" "by_ip".
Definition rule2 : rule := mkRule "id8" "by_ip".
Definition rule3 : rule := mkRule "id9" "by_port".

Definition with_three_rules : State :=
  snd (AddIndexRules 0 [rule1; rule2; rule3] created).

(** The root of the created lake once the pool "a" is cached, and the
    configs of the two pools. *)
Definition root_a : Root := mkRoot "lake" [("id0", 0%nat)] (Some tt) (Some tt).

Definition root_a_b : Root :=
  mkRoot "lake" [("id1", 1%nat); ("id0", 0%nat)] (Some tt) (Some tt).

Definition root_plain : Root := mkRoot "lake" [] (Some tt) (Some tt).

Definition config_a : Config :=
  mkConfig 1000 "a" "id0" ts_desc 65536 524288000.

Definition config_b : Config :=
  mkConfig 1001 "b" "id1" ts_desc 65536 524288000.

(** The lookup of the name "a" in the lake that has the pool. *)
Definition a_looked_up : State :=
  mkState (world with_a) (roots with_a) (heap with_a)
    (trace with_a ++ [EvLookupByName "a"]).

Definition b_looked_up : State :=
  mkState (world with_a) (roots with_a) (heap with_a)
    (trace with_a ++ [EvLookupByName "b"]).

(** The lake after the removal of the entry of the pool "a", and after the
    removal of its tree. *)
Definition entry_removed : lake :=
  (mkMemory (objects (fst (world created))) true (Some []) true ["id0"] None
     None None 1001 1, []).

Definition tree_removed : lake :=
  (mkMemory (objects (fst (world created))) true (Some []) true [] None None
     None 1001 1, []).

Definition a_removed : State :=
  mkState tree_removed [root_plain] (heap with_a)
    (trace with_a ++ [EvLookupByID "id0"; EvRemovePool "lake" config_a]).

(** The created lake with the first two rules. *)
Definition with_two_rules : State :=
  snd (AddIndexRules 0 [rule1; rule2] created).

(** A filter that lets every pool but "a" through. *)
Definition not_a (v : value) : bool := negb (String.eqb (String_ v) "a").

Definition pools_listed : State :=
  mkState (world with_a_b) (roots with_a_b) (heap with_a_b)
    (trace with_a_b ++ [EvAll]).

End MemX.

(** ** Scenarios on the in-memory lake *)

Module Scenario.

Import Mem.

(** The roots that occur, and the bytes of the magic record. *)
Definition new_root : Root := mkRoot "lake" [] None None.

Definition loaded_root : Root := mkRoot "lake" [] (Some tt) (Some tt).

Definition root_with_a : Root :=
  mkRoot "lake" [("id0", 0%nat)] (Some tt) (Some tt).

Definition magic_record : list (error + value) := [inr (VMagic "ZED LAKE" 3)].

(** No lake yet. *)
Definition fresh : State := start empty.

(** A lake created at "lake"; its root is at address 0. *)
Definition created : State := snd (Create "lake" fresh).

(** Then a pool named "a", with identifier "id0", cached at address 0. *)
Definition with_a : State := snd (CreatePool 0 "a" order_Nil 0 0 created).

Definition config_a : Config :=
  mkConfig 1000 "a" "id0" ts_desc 65536 524288000.

(** Then the pool renamed to HEAD. *)
Definition with_HEAD : State := snd (RenamePool 0 "id0" "HEAD" with_a).

(** Lakes whose magic file was written by hand. *)
Definition newer_version : State :=
  start (lake_with_magic [inr (VMagic "ZED LAKE" 4)]).

Definition other_magic : State :=
  start (lake_with_magic [inr (VMagic "ZED POND" 4)]).

Definition two_records : State :=
  start (lake_with_magic
           [inr (VMagic "ZED LAKE" 3); inr (VMagic "ZED LAKE" 3)]).

(** A new root on a backend without conditional put. *)
Definition plain_backend : memory :=
  mkMemory [] false None false [] None None None 1000 0.

Definition new_on_plain : State := mkState plain_backend [new_root] [] [].

Definition plain_after_get : State :=
  mkState plain_backend [new_root] [] [EvGet "lake/lake.zng"].

Definition plain_written : memory :=
  mkMemory [("lake/lake.zng", magic_record)] false None false [] None None None
    1000 0.

(** The created lake, with a fault planted in the package-level [OpenPool]
    and in [Add]. *)
Definition disk_error : error := ErrorsNew "input/output error".

Definition world_open_fault : memory :=
  mkMemory (objects (world created)) true (Some []) true [] (Some disk_error)
    None None 1000 0.

Definition open_fails : State :=
  mkState world_open_fault (roots created) [] [].

Definition world_add_fault : memory :=
  mkMemory (objects (world created)) true (Some []) true [] None
    (Some disk_error) None 1000 0.

Definition add_fails : State :=
  mkState world_add_fault (roots created) [] [].

(** The created lake on a store that fails from the moment the tree of the
    new pool is in place: [Add] fails, and so does the package-level
    [RemovePool]. *)
Definition world_store_down : memory :=
  mkMemory (objects (world created)) true (Some []) true [] None
    (Some disk_error) (Some disk_error) 1000 0.

Definition store_down : State :=
  mkState world_store_down (roots created) [] [].

Definition two_keys : SortKey := mkSortKey Asc [["a"]; ["b"]].

(** The config of the pool once it is renamed. *)
Definition config_HEAD : Config :=
  mkConfig 1000 "HEAD" "id0" ts_desc 65536 524288000.

(** The steps of [CreatePool] for the pool "a", from a state [s]: the
    lookup, [NewConfig], the package-level [CreatePool], [openPool]. *)
Definition looked_up (s : State) : State :=
  mkState (world s) (roots s) (heap s) (trace s ++ [EvLookupByName "a"]).

Definition configured (s : State) : State :=
  snd (NewConfig "a" order_Nil 524288000 0 (looked_up s)).

Definition tree_made (s : State) : State :=
  mkState (snd (CreateTree "lake" config_a (world (configured s))))
    (roots (configured s)) (heap (configured s))
    (trace (configured s) ++ [EvCreatePool "lake" config_a]).

Definition opened (s : State) : State :=
  snd (openPool 0 config_a (tree_made s)).

(** The worlds the two faulty runs end in: the clock and the identifier
    source have moved, the tree of the pool is gone again, the journal has no
    entry. *)
Definition after_open_fault : memory :=
  mkMemory (objects (world created)) true (Some []) true []
    (Some disk_error) None None 1001 1.

Definition after_add_fault : memory :=
  mkMemory (objects (world created)) true (Some []) true [] None
    (Some disk_error) None 1001 1.

End Scenario.

(** ** More scenarios on the in-memory lake *)

Module Cases.
Import Mem Scenario.

(** [Open] on the world without a lake. *)
Definition open_failed : State :=
  mkState empty [new_root] [] [EvGet "lake/lake.zng"].

(** A loaded root on a lake whose magic file holds the magic record, and
    the state after a read of that file. *)
Definition a_lake : State :=
  mkState (lake_with_magic magic_record) [loaded_root] [] [].

Definition a_lake_read : State :=
  mkState (lake_with_magic magic_record) [loaded_root] [] [EvGet "lake/lake.zng"].

Definition two_records_read : State :=
  mkState (lake_with_magic [inr (VMagic "ZED LAKE" 3); inr (VMagic "ZED LAKE" 3)])
    [new_root] [] [EvGet "lake/lake.zng"].

(** [CreateOrOpen] on the world without a lake. *)
Definition created_or_opened : State :=
  mkState (world created) (new_root :: roots created) []
    (EvGet "lake/lake.zng" :: trace created).

(** A lake that has its magic file and no journal. *)
Definition half_lake : memory :=
  mkMemory [("lake/lake.zng", magic_record)] true None false [] None None None
    1000 0.

Definition half_lake_with_journals : memory :=
  mkMemory [("lake/lake.zng", magic_record)] true (Some []) true [] None None
    None 1000 0.

Definition second_open : State :=
  mkState (world created) (roots created ++ [loaded_root]) []
    (trace created ++
     [EvGet "lake/lake.zng"; EvPoolsOpenStore "lake/pools";
      EvIndexOpenStore "lake/index_rules"]).

End Cases.

(** * Properties *)

Section Properties.

Context {C : Collaborators}.

Lemma lookup_snoc {A} (l : list A) (x : A) :
  ((l ++ [x])%list) !! length l = Some x.
Proof. by apply list_lookup_middle. Qed.

Lemma insert_snoc {A} (l : list A) (x y : A) :
  <[length l := y]> ((l ++ [x])%list) = (l ++ [y])%list.
Proof. rewrite insert_app_r_alt; [|lia]. by rewrite Nat.sub_diag. Qed.

Lemma lookup_insert_same {A} (l : list A) (i : nat) (x y : A) :
  l !! i = Some x -> <[i := y]> l !! i = Some y.
Proof.
  intros H. apply list_lookup_insert_eq. by apply lookup_lt_Some in H.
Qed.

(** *** The primitives *)

Lemma load_root_eq (s : State) (r : nat) (R : Root) :
  roots s !! r = Some R -> load_root r s = (Ok R, s).
Proof. intros H. unfold load_root. by rewrite H. Qed.

Lemma store_root_eq (s : State) (r : nat) (R R' : Root) :
  roots s !! r = Some R ->
  store_root r R' s =
    (Ok tt, mkState (world s) (<[r := R']> (roots s)) (heap s) (trace s)).
Proof. intros H. unfold store_root. by rewrite H. Qed.

Lemma the_pools_eq (s : State) (r : nat) (R : Root) (st : pools_Store) :
  roots s !! r = Some R -> pools R = Some st -> the_pools r s = (Ok st, s).
Proof.
  intros H Hp. unfold the_pools, bind. rewrite (load_root_eq _ _ _ H).
  by rewrite Hp.
Qed.

Lemma set_pools_eq (s : State) (r : nat) (R : Root) (v : option pools_Store) :
  roots s !! r = Some R ->
  set_pools r v s =
    (Ok tt,
     mkState (world s)
       (<[r := mkRoot (path R) (poolCache R) v (indexRules R)]> (roots s))
       (heap s) (trace s)).
Proof.
  intros H. unfold set_pools, bind. rewrite (load_root_eq _ _ _ H).
  by rewrite (store_root_eq _ _ _ _ H).
Qed.

Lemma set_indexRules_eq (s : State) (r : nat) (R : Root) (v : option index_Store) :
  roots s !! r = Some R ->
  set_indexRules r v s =
    (Ok tt,
     mkState (world s)
       (<[r := mkRoot (path R) (poolCache R) (pools R) v]> (roots s))
       (heap s) (trace s)).
Proof.
  intros H. unfold set_indexRules, bind. rewrite (load_root_eq _ _ _ H).
  by rewrite (store_root_eq _ _ _ _ H).
Qed.

Lemma set_poolCache_eq (s : State) (r : nat) (R : Root) (v : Cache) :
  roots s !! r = Some R ->
  set_poolCache r v s =
    (Ok tt,
     mkState (world s)
       (<[r := mkRoot (path R) v (pools R) (indexRules R)]> (roots s))
       (heap s) (trace s)).
Proof.
  intros H. unfold set_poolCache, bind. rewrite (load_root_eq _ _ _ H).
  by rewrite (store_root_eq _ _ _ _ H).
Qed.

Lemma newRoot_eq (s : State) (p : URI) :
  newRoot p s =
    (Ok (length (roots s)),
     mkState (world s) (roots s ++ [mkRoot p (lru_empty 1024) None None])
       (heap s) (trace s)).
Proof. reflexivity. Qed.

(** *** [readLakeMagic] *)

(** [readLakeMagic] calls [Get] once and nothing else, and does not panic. *)
Lemma readLakeMagic_run (s : State) (r : nat) (R : Root) :
  roots s !! r = Some R ->
  let p := JoinPath (path R) LakeMagicFile in
  exists res,
    readLakeMagic r s =
      (res,
       mkState (snd (engine_Get p (world s))) (roots s) (heap s)
         (trace s ++ [EvGet p])) /\
    res <> Panic.
Proof.
  intros HR p. unfold readLakeMagic, bind. rewrite (load_root_eq _ _ _ HR).
  fold p. unfold call. destruct (engine_Get p (world s)) as [[e|b] w]; cbn.
  { eexists; split; [reflexivity | discriminate]. }
  destruct (zngio_records b) as [|[e1|v1] zr]; cbn.
  - destruct (zson_UnmarshalZNG None) as [e|m]; cbn.
    { eexists; split; [reflexivity | discriminate]. }
    destruct (negb (Magic m =? LakeMagicString)%string).
    { eexists; split; [reflexivity | discriminate]. }
    destruct (negb (Version_ m =? Version)).
    { eexists; split; [reflexivity | discriminate]. }
    eexists; split; [reflexivity | discriminate].
  - eexists; split; [reflexivity | discriminate].
  - destruct zr as [|[e2|v2] zr]; cbn.
    + destruct (zson_UnmarshalZNG (Some v1)) as [e|m]; cbn.
      { eexists; split; [reflexivity | discriminate]. }
      destruct (negb (Magic m =? LakeMagicString)%string).
      { eexists; split; [reflexivity | discriminate]. }
      destruct (negb (Version_ m =? Version)).
      { eexists; split; [reflexivity | discriminate]. }
      eexists; split; [reflexivity | discriminate].
    + eexists; split; [reflexivity | discriminate].
    + eexists; split; [reflexivity | discriminate].
Qed.

(** The outcome of [readLakeMagic] once [Get] has delivered the object. *)
Lemma readLakeMagic_got (s : State) (r : nat) (R : Root) (b : Bytes) (w : World) :
  roots s !! r = Some R ->
  let p := JoinPath (path R) LakeMagicFile in
  engine_Get p (world s) = (inr b, w) ->
  let s' := mkState w (roots s) (heap s) (trace s ++ [EvGet p]) in
  (forall v1 v2 rest,
     zngio_records b = inr v1 :: inr v2 :: rest ->
     readLakeMagic r s = (Err (errSecondValue (zson_String v2)), s')) /\
  (forall v m,
     zngio_records b = [inr v] -> zson_UnmarshalZNG (Some v) = inr m ->
     readLakeMagic r s =
       (if negb (Magic m =? LakeMagicString)%string then
          Err (errBadMagic (Magic m))
        else if negb (Version_ m =? Version) then
          Err (errUnsupportedVersion (Version_ m))
        else Ok tt, s')).
Proof.
  intros HR p HG s'. split.
  - intros v1 v2 rest Hz.
    unfold readLakeMagic, bind. rewrite (load_root_eq _ _ _ HR).
    fold p. unfold call. rewrite HG. cbn. rewrite Hz. reflexivity.
  - intros v m Hz Hu.
    unfold readLakeMagic, bind. rewrite (load_root_eq _ _ _ HR).
    fold p. unfold call. rewrite HG. cbn. rewrite Hz. cbn. rewrite Hu.
    destruct (negb (Magic m =? LakeMagicString)%string); [reflexivity|].
    destruct (negb (Version_ m =? Version)); reflexivity.
Qed.

(** *** [Open] *)

(** When the magic check fails with an error that does not wrap
    [fs.ErrNotExist], [Open] returns that error as it is. *)
Lemma Open_magic_fails (s s1 : State) (path0 : URI) (e : error) :
  readLakeMagic (length (roots s))
    (mkState (world s) (roots s ++ [mkRoot path0 (lru_empty 1024) None None])
       (heap s) (trace s)) = (Err e, s1) ->
  errors_Is e fs_ErrNotExist = false ->
  Open path0 s = (Err e, s1).
Proof.
  intros Hr His. unfold Open, bind. rewrite newRoot_eq.
  unfold catch, loadConfig, bind. rewrite Hr. cbn. by rewrite His.
Qed.

(** C1, as amended.  When the magic file holds exactly one record, with the
    expected magic string and a version other than [Version], [Open] fails
    with the error of the version check, whose text is
    "unsupported lake version: found version V while expecting 3"; it
    returns no Root, and the one call it has made is the [Get] of the magic
    file. *)
Theorem Open_unsupported_version (s : State) (path0 : URI) (b : Bytes)
  (w : World) (v : zed_Value) (m : LakeMagic) :
  engine_Get (JoinPath path0 LakeMagicFile) (world s) = (inr b, w) ->
  zngio_records b = [inr v] ->
  zson_UnmarshalZNG (Some v) = inr m ->
  Magic m = LakeMagicString ->
  Version_ m <> Version ->
  Open path0 s =
    (Err (errUnsupportedVersion (Version_ m)),
     mkState w (roots s ++ [mkRoot path0 (lru_empty 1024) None None]) (heap s)
       (trace s ++ [EvGet (JoinPath path0 LakeMagicFile)])) /\
  Error strconv_Quote foreign_text (errUnsupportedVersion (Version_ m)) =
    "unsupported lake version: found version " ++ itoa (Version_ m) ++
    " while expecting 3".
Proof.
  intros HG Hz Hu Hm Hv. split; [|reflexivity].
  apply Open_magic_fails; [|reflexivity].
  pose (s0 := mkState (world s)
                (roots s ++ [mkRoot path0 (lru_empty 1024) None None])
                (heap s) (trace s)).
  assert (HR : roots s0 !! length (roots s) =
               Some (mkRoot path0 (lru_empty 1024) None None))
    by apply lookup_snoc.
  destruct (readLakeMagic_got s0 _ _ b w HR HG) as [_ H1].
  fold s0. rewrite (H1 v m Hz Hu). cbn [path]. rewrite Hm. cbn.
  destruct (Z.eqb_spec (Version_ m) Version) as [Heq|_]; [contradiction|].
  reflexivity.
Qed.

(** C2.  When the magic file holds a second top-level record, or holds one
    record whose magic string is not the expected one, [Open] fails with an
    error whose text begins with "corrupt lake version file"; the error comes
    out of [Open] as [readLakeMagic] made it, after a single [Get]: nothing
    is tried again. *)
Theorem Open_corrupt (s : State) (path0 : URI) (b : Bytes) (w : World) :
  engine_Get (JoinPath path0 LakeMagicFile) (world s) = (inr b, w) ->
  (exists v1 v2 rest, zngio_records b = inr v1 :: inr v2 :: rest) \/
  (exists v m, zngio_records b = [inr v] /\
     zson_UnmarshalZNG (Some v) = inr m /\ Magic m <> LakeMagicString) ->
  exists e,
    Open path0 s =
      (Err e,
       mkState w (roots s ++ [mkRoot path0 (lru_empty 1024) None None])
         (heap s) (trace s ++ [EvGet (JoinPath path0 LakeMagicFile)])) /\
    ((exists v, e = errSecondValue (zson_String v)) \/
     (exists found, e = errBadMagic found)) /\
    String.prefix "corrupt lake version file"
      (Error strconv_Quote foreign_text e) = true.
Proof.
  intros HG Hcase.
  pose (s0 := mkState (world s)
                (roots s ++ [mkRoot path0 (lru_empty 1024) None None])
                (heap s) (trace s)).
  assert (HR : roots s0 !! length (roots s) =
               Some (mkRoot path0 (lru_empty 1024) None None))
    by apply lookup_snoc.
  destruct (readLakeMagic_got s0 _ _ b w HR HG) as [H2 H1].
  destruct Hcase as [(v1 & v2 & rest & Hz) | (v & m & Hz & Hu & Hm)].
  - exists (errSecondValue (zson_String v2)). split; [|split].
    + apply Open_magic_fails; [|reflexivity]. fold s0.
      by rewrite (H2 v1 v2 rest Hz).
    + left. by exists v2.
    + reflexivity.
  - exists (errBadMagic (Magic m)). split; [|split].
    + apply Open_magic_fails; [|reflexivity]. fold s0.
      rewrite (H1 v m Hz Hu).
      destruct (String.eqb_spec (Magic m) LakeMagicString) as [Heq|_];
        [contradiction|].
      reflexivity.
    + right. by exists (Magic m).
    + reflexivity.
Qed.

(** *** [writeLakeMagic] and [Create] *)

(** C7.  Once [writeLakeMagic] has found no valid magic file and has
    serialized the magic record, it calls [PutIfNotExists] on the magic
    file.  A nil result ends it; the result [storage.ErrNotSupported] makes
    it call [storage.Put] with the same bytes and return what [Put]
    returns; any other error is returned as it is, with no further call. *)
Theorem writeLakeMagic_put (s s1 : State) (r : nat) (R : Root) (e0 : error)
  (b : Bytes) (err : option error) (w2 : World) :
  roots s !! r = Some R ->
  readLakeMagic r s = (Err e0, s1) ->
  zngbytes_Serialize (mkLakeMagic LakeMagicString Version) = inr b ->
  engine_PutIfNotExists (JoinPath (path R) LakeMagicFile) b (world s1) = (err, w2) ->
  let p := JoinPath (path R) LakeMagicFile in
  let conditional :=
    mkState w2 (roots s) (heap s) (trace s1 ++ [EvPutIfNotExists p b]) in
  (err = None -> writeLakeMagic r s = (Ok tt, conditional)) /\
  (err = Some (Sentinel storage_ErrNotSupported) ->
   writeLakeMagic r s =
     (match fst (storage_Put p b w2) with
      | None => Ok tt
      | Some e => Err e
      end,
      mkState (snd (storage_Put p b w2)) (roots s) (heap s)
        (trace s1 ++ [EvPutIfNotExists p b; EvPut p b]))) /\
  (forall e, err = Some e -> e <> Sentinel storage_ErrNotSupported ->
   writeLakeMagic r s = (Err e, conditional)).
Proof.
  intros HR Hread Hser Hput p conditional.
  destruct (readLakeMagic_run s r R HR) as (res & Hrun & _).
  rewrite Hread in Hrun. injection Hrun as _ Hs1.
  assert (HR1 : roots s1 !! r = Some R) by (rewrite Hs1; exact HR).
  assert (Hroots : roots s1 = roots s) by (by rewrite Hs1).
  assert (Hheap : heap s1 = heap s) by (by rewrite Hs1).
  fold p in Hput.
  unfold writeLakeMagic, bind, catch, call, check, ret, fail, load_root.
  rewrite Hread, Hser, HR1. fold p. rewrite Hput, Hroots, Hheap.
  split; [|split].
  - intros ->. reflexivity.
  - intros ->. cbn. rewrite bool_decide_eq_true_2 by reflexivity. cbn.
    destruct (storage_Put p b w2) as [[e|] w3]; cbn;
      by rewrite <- app_assoc.
  - intros e -> Hne.
    destruct e as [sn| |]; try reflexivity.
    cbn. rewrite bool_decide_eq_false_2 by congruence. reflexivity.
Qed.

(** C3, as amended.  On a path where no magic file can be read, [Create]
    first creates the pools config store, then the index-rules config store,
    and writes the magic record last, with [PutIfNotExists]; these, with the
    two reads of the magic file that precede the creation of the stores and
    the write, are all the calls it makes. *)
Theorem Create_order (s : State) (path0 : URI) (e1 e2 : error)
  (w1 w2 w3 w4 w5 : World) (ps : pools_Store) (rs : index_Store) (b : Bytes) :
  engine_Get (JoinPath path0 LakeMagicFile) (world s) = (inl e1, w1) ->
  pools_CreateStore (JoinPath path0 PoolsTag) w1 = (inr ps, w2) ->
  index_CreateStore (JoinPath path0 IndexRulesTag) w2 = (inr rs, w3) ->
  engine_Get (JoinPath path0 LakeMagicFile) w3 = (inl e2, w4) ->
  zngbytes_Serialize (mkLakeMagic LakeMagicString Version) = inr b ->
  engine_PutIfNotExists (JoinPath path0 LakeMagicFile) b w4 = (None, w5) ->
  Create path0 s =
    (Ok (length (roots s)),
     mkState w5
       (roots s ++ [mkRoot path0 (lru_empty 1024) (Some ps) (Some rs)])
       (heap s)
       (trace s ++
        [EvGet (JoinPath path0 LakeMagicFile);
         EvPoolsCreateStore (JoinPath path0 PoolsTag);
         EvIndexCreateStore (JoinPath path0 IndexRulesTag);
         EvGet (JoinPath path0 LakeMagicFile);
         EvPutIfNotExists (JoinPath path0 LakeMagicFile) b])).
Proof.
  intros HG1 HP HI HG2 Hser Hput.
  unfold Create, createConfig, loadConfig, writeLakeMagic, readLakeMagic,
    newRoot, lru_NewARC, set_pools, set_indexRules, new_root, load_root,
    store_root, bind, catch, call, check, unwrap, ret, fail.
  cbn. rewrite lookup_snoc. cbn. rewrite HG1. cbn.
  rewrite lookup_snoc. cbn. rewrite HP. cbn.
  rewrite lookup_snoc. cbn. rewrite lookup_snoc, insert_snoc. cbn.
  rewrite HI. cbn. rewrite lookup_snoc. cbn.
  rewrite lookup_snoc, insert_snoc. cbn. rewrite lookup_snoc. cbn.
  rewrite HG2. cbn. rewrite Hser. cbn. rewrite lookup_snoc. cbn.
  rewrite Hput. cbn.
  repeat rewrite <- app_assoc. reflexivity.
Qed.

(** X18.  A second [Create] on a path whose magic file and journals are in
    place fails with an error that wraps [ErrExist], having written
    nothing. *)
Lemma Create_exists (s : State) (path0 : URI) (b : Bytes) (w1 w2 w3 : World)
  (v : zed_Value) (ps : pools_Store) (rs : index_Store) :
  engine_Get (JoinPath path0 LakeMagicFile) (world s) = (inr b, w1) ->
  zngio_records b = [inr v] ->
  zson_UnmarshalZNG (Some v) = inr (mkLakeMagic LakeMagicString Version) ->
  pools_OpenStore (JoinPath path0 PoolsTag) w1 = (inr ps, w2) ->
  index_OpenStore (JoinPath path0 IndexRulesTag) w2 = (inr rs, w3) ->
  Create path0 s =
    (Err (Errorf "%s: %w" [ArgS path0; ArgW (Sentinel lake_ErrExist)]),
     mkState w3
       (roots s ++ [mkRoot path0 (lru_empty 1024) (Some ps) (Some rs)])
       (heap s)
       (trace s ++
        [EvGet (JoinPath path0 LakeMagicFile);
         EvPoolsOpenStore (JoinPath path0 PoolsTag);
         EvIndexOpenStore (JoinPath path0 IndexRulesTag)])).
Proof.
  intros HG Hz Hu HP HI.
  unfold Create, loadConfig, readLakeMagic,
    newRoot, lru_NewARC, set_pools, set_indexRules, new_root, load_root,
    store_root, bind, catch, call, check, unwrap, ret, fail.
  cbn. rewrite lookup_snoc. cbn. rewrite HG. cbn. rewrite Hz. cbn.
  rewrite Hu. cbn. rewrite lookup_snoc. cbn. rewrite HP. cbn.
  rewrite lookup_snoc. cbn. rewrite lookup_snoc, insert_snoc. cbn.
  rewrite HI. cbn. rewrite lookup_snoc. cbn.
  rewrite lookup_snoc, insert_snoc. cbn.
  repeat rewrite <- app_assoc. reflexivity.
Qed.

(** *** [NewConfig] and [openPool] *)

(** [NewConfig] reads the clock, draws an identifier, and fills the defaults. *)
Lemma NewConfig_run (s : State) (name : string) (sortKey : SortKey)
  (thresh seekStride : Z) :
  let now := nano_Now (world s) in
  let new := ksuid_New (snd now) in
  NewConfig name sortKey thresh seekStride s =
    (Ok (mkConfig (fst now) name (fst new)
           (if IsNil sortKey then ts_desc else sortKey)
           (if seekStride =? 0 then data_DefaultSeekStride else seekStride)
           (if thresh =? 0 then data_DefaultThreshold else thresh)),
     mkState (snd new) (roots s) (heap s) (trace s ++ [EvNow; EvNewID])).
Proof.
  unfold NewConfig, bind, call, ret. cbn.
  destruct (nano_Now (world s)) as [ts w1]. cbn.
  destruct (ksuid_New w1) as [id w2]. cbn.
  by rewrite <- app_assoc.
Qed.

(** [openPool] on a cached identifier: the pool is copied to a new address
    and the copy gets the config at hand. *)
Lemma openPool_hit (s : State) (r : nat) (R : Root) (c : Config) (p : nat)
  (cache : Cache) (P : Pool Pool_internals) :
  roots s !! r = Some R ->
  lru_Get (ID c) (poolCache R) = (Some p, cache) ->
  heap s !! p = Some P ->
  openPool r c s =
    (Ok (length (heap s)),
     mkState (world s)
       (<[r := mkRoot (path R) cache (pools R) (indexRules R)]> (roots s))
       (heap s ++ [mkPool c (internals P)]) (trace s)).
Proof.
  intros HR Hget HP.
  unfold openPool, bind. rewrite (load_root_eq _ _ _ HR). rewrite Hget.
  rewrite (set_poolCache_eq _ _ _ _ HR).
  unfold load_pool, new_pool, store_pool, ret. cbn. rewrite HP. cbn.
  rewrite lookup_snoc, insert_snoc. reflexivity.
Qed.

(** [openPool] on an identifier that is not cached: the pool comes from the
    package-level [OpenPool] and enters the cache, or the error of
    [OpenPool] is returned. *)
Lemma openPool_miss (s : State) (r : nat) (R : Root) (c : Config)
  (cache : Cache) :
  roots s !! r = Some R ->
  lru_Get (ID c) (poolCache R) = (None, cache) ->
  let opened := lake_OpenPool (path R) c (world s) in
  let R1 := mkRoot (path R) cache (pools R) (indexRules R) in
  openPool r c s =
    match fst opened with
    | inr P =>
        (Ok (length (heap s)),
         mkState (snd opened)
           (<[r := mkRoot (path R) (lru_Add (ID c) (length (heap s)) cache)
                     (pools R) (indexRules R)]> (roots s))
           (heap s ++ [P]) (trace s ++ [EvOpenPool (path R) c]))
    | inl e =>
        (Err e,
         mkState (snd opened) (<[r := R1]> (roots s)) (heap s)
           (trace s ++ [EvOpenPool (path R) c]))
    end.
Proof.
  intros HR Hget opened R1.
  unfold openPool, bind. rewrite (load_root_eq _ _ _ HR). rewrite Hget.
  rewrite (set_poolCache_eq _ _ _ _ HR).
  unfold call, unwrap, new_pool, ret, fail. cbn. fold opened.
  destruct opened as [[e|P] w']; cbn; [reflexivity|].
  unfold set_poolCache, bind, load_root, store_root. cbn.
  repeat (rewrite (lookup_insert_same _ _ _ _ HR); cbn).
  by rewrite list_insert_insert_eq.
Qed.

(** What [openPool] leaves behind, whatever its outcome: the root keeps its
    path and its stores, the only call it can have made is the package-level
    [OpenPool], and a pool it returns carries the config at hand when it is a
    copy of a cached pool, and is the pool [OpenPool] built otherwise. *)
Lemma openPool_run (s s' : State) (r : nat) (R : Root) (c : Config)
  (res : result nat) :
  roots s !! r = Some R ->
  openPool r c s = (res, s') ->
  (exists R', roots s' !! r = Some R' /\ path R' = path R /\
     pools R' = pools R) /\
  ((world s' = world s /\ trace s' = trace s) \/
   (world s' = snd (lake_OpenPool (path R) c (world s)) /\
    trace s' = (trace s ++ [EvOpenPool (path R) c])%list)) /\
  (forall p, res = Ok p ->
     exists P, heap s' !! p = Some P /\
       (Config_ P = c \/ fst (lake_OpenPool (path R) c (world s)) = inr P)).
Proof.
  intros HR Hrun.
  destruct (lru_Get (ID c) (poolCache R)) as [[p|] cache] eqn:Hget.
  - destruct (heap s !! p) as [P|] eqn:HP.
    + rewrite (openPool_hit _ _ _ _ _ _ _ HR Hget HP) in Hrun.
      injection Hrun as <- <-. cbn. split; [|split].
      * eexists. split; [by apply (lookup_insert_same _ _ R)|done].
      * by left.
      * intros q [= <-]. eexists. split; [apply lookup_snoc|]. by left.
    + unfold openPool, bind in Hrun. rewrite (load_root_eq _ _ _ HR) in Hrun.
      rewrite Hget in Hrun. rewrite (set_poolCache_eq _ _ _ _ HR) in Hrun.
      unfold load_pool in Hrun. cbn in Hrun. rewrite HP in Hrun.
      injection Hrun as <- <-. cbn. split; [|split].
      * eexists. split; [by apply (lookup_insert_same _ _ R)|done].
      * by left.
      * discriminate.
  - rewrite (openPool_miss _ _ _ _ _ HR Hget) in Hrun.
    destruct (lake_OpenPool (path R) c (world s)) as [[e|P] w'] eqn:Hopen;
      cbn in Hrun; injection Hrun as <- <-; cbn; (split; [|split]).
    + eexists. split; [by apply (lookup_insert_same _ _ R)|done].
    + by right.
    + discriminate.
    + eexists. split; [by apply (lookup_insert_same _ _ R)|done].
    + by right.
    + intros q [= <-]. eexists. split; [apply lookup_snoc|]. by right.
Qed.

(** *** [OpenPool] *)

(** C8.  When the cache holds a pool under the identifier of the config at
    hand, [openPool] returns a new address that holds the cached pool with
    its [Config] field replaced by that config; the pool at the cached
    address is what it was, and the package-level [OpenPool] is not called.
    [OpenPool] hands to [openPool] the config that the pools store has for
    the identifier, so the pool it returns carries the config of the store. *)
Theorem openPool_cached (s : State) (r : nat) (R : Root) (c : Config)
  (p : nat) (cache : Cache) (P : Pool Pool_internals) :
  roots s !! r = Some R ->
  lru_Get (ID c) (poolCache R) = (Some p, cache) ->
  heap s !! p = Some P ->
  let copy := length (heap s) in
  let after (w : World) (tr : list event) : State :=
    mkState w
      (<[r := mkRoot (path R) cache (pools R) (indexRules R)]> (roots s))
      (heap s ++ [mkPool c (internals P)]) tr in
  openPool r c s = (Ok copy, after (world s) (trace s)) /\
  copy <> p /\
  heap (after (world s) (trace s)) !! copy = Some (mkPool c (internals P)) /\
  heap (after (world s) (trace s)) !! p = Some P /\
  (forall st id w1,
     pools R = Some st ->
     Store_LookupByID st id (world s) = (inr c, w1) ->
     OpenPool r id s =
       (Ok copy, after w1 (trace s ++ [EvLookupByID id])%list)).
Proof.
  intros HR Hget HP copy after.
  split; [|split; [|split; [|split]]].
  - by apply (openPool_hit _ _ _ _ p).
  - apply lookup_lt_Some in HP. unfold copy. lia.
  - cbn. apply lookup_snoc.
  - cbn. by apply lookup_app_l_Some.
  - intros st id w1 Hst Hlook.
    unfold OpenPool, bind. rewrite (the_pools_eq _ _ _ _ HR Hst).
    unfold call, unwrap, ret. rewrite Hlook. cbn.
    erewrite openPool_hit; [reflexivity|exact HR|exact Hget|exact HP].
Qed.

(** *** [CreatePool] *)

(** C4.  [CreatePool] with the name HEAD fails with the error of the name
    check, which wraps no error variable; the state is untouched: no
    collaborator is called and no pool is made. *)
Theorem CreatePool_HEAD (s : State) (r : nat) (sortKey : SortKey)
  (seekStride thresh : Z) :
  CreatePool r "HEAD" sortKey seekStride thresh s =
    (Err (errReservedName "HEAD"), s) /\
  errors_Is (errReservedName "HEAD") pools_ErrExists = false.
Proof. split; reflexivity. Qed.

(** C5, as amended.  When the pools store finds a pool under a name other
    than HEAD, [CreatePool] with that name fails with an error that wraps
    [pools.ErrExists]; the lookup is the only call it makes, so the set of
    pools is what it was. *)
Theorem CreatePool_exists (s : State) (r : nat) (R : Root) (st : pools_Store)
  (name : string) (c : Config) (w1 : World) (sortKey : SortKey)
  (seekStride thresh : Z) :
  name <> "HEAD" ->
  roots s !! r = Some R ->
  pools R = Some st ->
  Store_LookupByName st name (world s) = (Some c, w1) ->
  CreatePool r name sortKey seekStride thresh s =
    (Err (errPoolExists name),
     mkState w1 (roots s) (heap s) (trace s ++ [EvLookupByName name])) /\
  errors_Is (errPoolExists name) pools_ErrExists = true.
Proof.
  intros Hname HR Hst Hlook. split; [|reflexivity].
  unfold CreatePool.
  destruct (String.eqb_spec name "HEAD") as [Heq|_]; [contradiction|].
  unfold bind. rewrite (the_pools_eq _ _ _ _ HR Hst).
  unfold call. rewrite Hlook. reflexivity.
Qed.

(** C6, as amended.  [CreatePool] with a sort key of more than one key
    fails, and the lookup of the name is the only call it can have made.
    The error is that of the key check when the name is not HEAD and names
    no pool; the error of the name check and the error that wraps
    [pools.ErrExists] come first. *)
Theorem CreatePool_multiple_keys (s : State) (r : nat) (R : Root)
  (st : pools_Store) (name : string) (found : option Config) (w1 : World)
  (sortKey : SortKey) (seekStride thresh : Z) :
  roots s !! r = Some R ->
  pools R = Some st ->
  Store_LookupByName st name (world s) = (found, w1) ->
  (1 < length (Keys sortKey))%nat ->
  CreatePool r name sortKey seekStride thresh s =
    if String.eqb name "HEAD" then (Err (errReservedName name), s)
    else
      (Err match found with
           | Some _ => errPoolExists name
           | None => errMultipleKeys
           end,
       mkState w1 (roots s) (heap s) (trace s ++ [EvLookupByName name])).
Proof.
  intros HR Hst Hlook Hkeys. unfold CreatePool.
  destruct (String.eqb name "HEAD"); [reflexivity|].
  unfold bind. rewrite (the_pools_eq _ _ _ _ HR Hst).
  unfold call. rewrite Hlook. destruct found as [c|]; [reflexivity|].
  destruct (Z.ltb_spec 1 (Z.of_nat (length (Keys sortKey)))) as [_|Hle];
    [reflexivity | lia].
Qed.

(** [CreatePool] up to the point where the tree of the pool is in place:
    what is left to run is [openPool], [Add] and the undoing. *)
Lemma CreatePool_prefix (s s3 : State) (r : nat) (R : Root) (st : pools_Store)
  (name : string) (w1 w4 : World) (sortKey : SortKey) (seekStride thresh : Z)
  (config : Config) :
  name <> "HEAD" ->
  roots s !! r = Some R ->
  pools R = Some st ->
  Store_LookupByName st name (world s) = (None, w1) ->
  (length (Keys sortKey) <= 1)%nat ->
  NewConfig name sortKey
    (if thresh =? 0 then data_DefaultThreshold else thresh) seekStride
    (mkState w1 (roots s) (heap s) (trace s ++ [EvLookupByName name])) =
    (Ok config, s3) ->
  lake_CreatePool (path R) config (world s3) = (None, w4) ->
  roots s3 = roots s /\
  CreatePool r name sortKey seekStride thresh s =
    bind (catch (openPool r config))
      (fun res =>
         match res with
         | inl err =>
             call (EvRemovePool (path R) config)
               (lake_RemovePool (path R) config) ;;;
             fail err
         | inr pool =>
             st <- the_pools r ;;
             err <- call (EvAdd config) (Store_Add st config) ;;
             match err with
             | Some e =>
                 call (EvRemovePool (path R) config)
                   (lake_RemovePool (path R) config) ;;;
                 fail e
             | None => ret pool
             end
         end)
      (mkState w4 (roots s3) (heap s3)
         (trace s3 ++ [EvCreatePool (path R) config])).
Proof.
  intros Hname HR Hst Hlook Hkeys Hnew Hcreate.
  assert (Hroots : roots s3 = roots s).
  { rewrite NewConfig_run in Hnew. by injection Hnew as _ <-. }
  split; [exact Hroots|].
  unfold CreatePool.
  destruct (String.eqb_spec name "HEAD") as [Heq|_]; [contradiction|].
  unfold bind at 1. rewrite (the_pools_eq _ _ _ _ HR Hst).
  unfold bind at 1, call at 1. rewrite Hlook.
  destruct (Z.ltb_spec 1 (Z.of_nat (length (Keys sortKey)))) as [Hlt|_];
    [lia|].
  unfold bind at 1. rewrite Hnew.
  assert (HR3 : roots s3 !! r = Some R) by (by rewrite Hroots).
  unfold bind at 1. rewrite (load_root_eq _ _ _ HR3).
  unfold bind at 1, bind at 1, call at 1. rewrite Hcreate.
  reflexivity.
Qed.

(** C9, as amended.  Once the tree of the new pool is in place, a failure
    of [openPool] and a failure of [Add] both end [CreatePool] the same way: the
    package-level [RemovePool] is called on the config, whatever it returns is
    dropped, and the error of [openPool] or of [Add] is returned.  In the
    first case [Add] has not been called.  When the pool listing is isolated
    from the other calls, a lookup of the name in the world that is left
    finds nothing. *)
Theorem CreatePool_undo (s s3 s5 : State) (r : nat) (R : Root)
  (st : pools_Store) (name : string) (w1 w4 : World) (sortKey : SortKey)
  (seekStride thresh : Z) (config : Config) (res : result nat) :
  name <> "HEAD" ->
  roots s !! r = Some R ->
  pools R = Some st ->
  Store_LookupByName st name (world s) = (None, w1) ->
  (length (Keys sortKey) <= 1)%nat ->
  NewConfig name sortKey
    (if thresh =? 0 then data_DefaultThreshold else thresh) seekStride
    (mkState w1 (roots s) (heap s) (trace s ++ [EvLookupByName name])) =
    (Ok config, s3) ->
  lake_CreatePool (path R) config (world s3) = (None, w4) ->
  openPool r config
    (mkState w4 (roots s3) (heap s3)
       (trace s3 ++ [EvCreatePool (path R) config])) = (res, s5) ->
  listing_isolated st name (path R) ->
  let removed (w : World) (tr : list event) : State :=
    mkState (snd (lake_RemovePool (path R) config w)) (roots s5) (heap s5)
      (tr ++ [EvRemovePool (path R) config]) in
  (forall e, res = Err e ->
     CreatePool r name sortKey seekStride thresh s =
       (Err e, removed (world s5) (trace s5)) /\
     (exists tr, trace s5 = (trace s ++ tr)%list /\
        position adds_entry tr = None) /\
     finds st name (snd (lake_RemovePool (path R) config (world s5))) = None) /\
  (forall p e w6, res = Ok p ->
     Store_Add st config (world s5) = (Some e, w6) ->
     CreatePool r name sortKey seekStride thresh s =
       (Err e, removed w6 (trace s5 ++ [EvAdd config])%list) /\
     finds st name (snd (lake_RemovePool (path R) config w6)) = None).
Proof.
  intros Hname HR Hst Hlook Hkeys Hnew Hcreate Hopen Hiso removed.
  destruct (CreatePool_prefix _ _ _ _ _ _ _ _ _ _ _ _
              Hname HR Hst Hlook Hkeys Hnew Hcreate) as [Hroots Hrun].
  destruct Hiso as (Ilook & Inow & Inew & Icreate & Iopen & Iremove & Iadd).
  (* the name is missing in every world up to the one [openPool] leaves *)
  assert (A1 : finds st name w1 = None).
  { assert (H0 : finds st name (world s) = None)
      by (unfold finds; by rewrite Hlook).
    apply Ilook in H0. by rewrite Hlook in H0. }
  assert (Hs3 : s3 =
    mkState (snd (ksuid_New (snd (nano_Now w1)))) (roots s) (heap s)
      ((trace s ++ [EvLookupByName name]) ++ [EvNow; EvNewID])).
  { rewrite NewConfig_run in Hnew. by injection Hnew as _ <-. }
  assert (A3 : finds st name (world s3) = None).
  { rewrite Hs3. cbn. by apply Inew, Inow. }
  assert (A4 : finds st name w4 = None).
  { apply (Icreate config) in A3. by rewrite Hcreate in A3. }
  assert (HR4 : roots (mkState w4 (roots s3) (heap s3)
                  (trace s3 ++ [EvCreatePool (path R) config])) !! r = Some R)
    by (cbn; by rewrite Hroots).
  destruct (openPool_run _ _ _ _ _ _ HR4 Hopen) as ((R5 & HR5 & _ & Hp5) & Hw5 & _).
  cbn in Hw5.
  assert (A5 : finds st name (world s5) = None).
  { destruct Hw5 as [[-> _]|[-> _]]; [exact A4|by apply Iopen]. }
  split.
  - intros e ->. split; [|split].
    + rewrite Hrun. unfold bind at 1, catch. rewrite Hopen.
      unfold bind, call, fail, removed. cbn.
      by destruct (lake_RemovePool (path R) config (world s5)).
    + destruct Hw5 as [[_ ->]|[_ ->]]; rewrite Hs3; cbn;
        repeat rewrite <- app_assoc; eexists; split; try reflexivity;
        reflexivity.
    + by apply Iremove.
  - intros p e w6 -> Hadd. split.
    + rewrite Hrun. unfold bind at 1, catch. rewrite Hopen.
      assert (Hst5 : pools R5 = Some st) by (by rewrite Hp5).
      unfold bind at 1. rewrite (the_pools_eq _ _ _ _ HR5 Hst5).
      unfold bind, call, fail, removed. rewrite Hadd. cbn.
      by destruct (lake_RemovePool (path R) config w6).
    + apply Iremove. by apply (Iadd config (world s5) e w6).
Qed.

(** C10.  [NewConfig] puts the key "ts" in descending order in place of a
    nil sort key, the default threshold in place of a zero threshold and the
    default seek stride in place of a zero seek stride, and keeps every other
    operand.  [CreatePool] with a nil sort key passes its key check: when
    the collaborators succeed it returns the pool, the config it adds to the
    pools store is sorted by "ts" descending, and so is the pool, given a
    package-level [OpenPool] that builds the pool around the config it is
    handed. *)
Theorem CreatePool_nil_sort_key (s s3 s5 : State) (r : nat) (R : Root)
  (st : pools_Store) (name : string) (w1 w4 w6 : World) (sortKey : SortKey)
  (seekStride thresh : Z) (config : Config) (p : nat) :
  name <> "HEAD" ->
  roots s !! r = Some R ->
  pools R = Some st ->
  Store_LookupByName st name (world s) = (None, w1) ->
  IsNil sortKey = true ->
  NewConfig name sortKey
    (if thresh =? 0 then data_DefaultThreshold else thresh) seekStride
    (mkState w1 (roots s) (heap s) (trace s ++ [EvLookupByName name])) =
    (Ok config, s3) ->
  lake_CreatePool (path R) config (world s3) = (None, w4) ->
  openPool r config
    (mkState w4 (roots s3) (heap s3)
       (trace s3 ++ [EvCreatePool (path R) config])) = (Ok p, s5) ->
  Store_Add st config (world s5) = (None, w6) ->
  (forall w P w', lake_OpenPool (path R) config w = (inr P, w') ->
     Config_ P = config) ->
  (forall s0 n k t d, exists cfg s0',
     NewConfig n k t d s0 = (Ok cfg, s0') /\
     Name cfg = n /\
     SortKey_ cfg = (if IsNil k then ts_desc else k) /\
     Threshold cfg = (if t =? 0 then data_DefaultThreshold else t) /\
     SeekStride cfg = (if d =? 0 then data_DefaultSeekStride else d)) /\
  CreatePool r name sortKey seekStride thresh s =
    (Ok p, mkState w6 (roots s5) (heap s5) (trace s5 ++ [EvAdd config])) /\
  SortKey_ config = ts_desc /\
  Order ts_desc = Desc /\ Keys ts_desc = [["ts"]] /\
  (exists P, heap s5 !! p = Some P /\ SortKey_ (Config_ P) = ts_desc).
Proof.
  intros Hname HR Hst Hlook Hnil Hnew Hcreate Hopen Hadd Hbuilt.
  assert (Hkeys : (length (Keys sortKey) <= 1)%nat).
  { unfold IsNil in Hnil. destruct (Keys sortKey); [cbn; lia|discriminate]. }
  destruct (CreatePool_prefix _ _ _ _ _ _ _ _ _ _ _ _
              Hname HR Hst Hlook Hkeys Hnew Hcreate) as [Hroots Hrun].
  assert (HR4 : roots (mkState w4 (roots s3) (heap s3)
                  (trace s3 ++ [EvCreatePool (path R) config])) !! r = Some R)
    by (cbn; by rewrite Hroots).
  destruct (openPool_run _ _ _ _ _ _ HR4 Hopen)
    as ((R5 & HR5 & _ & Hp5) & _ & Hpool).
  assert (Hsk : SortKey_ config = ts_desc).
  { rewrite NewConfig_run in Hnew. injection Hnew as <- _. cbn.
    by rewrite Hnil. }
  split; [|split; [|split; [|split; [|split]]]].
  - intros s0 n k t d. do 2 eexists. rewrite NewConfig_run. by cbn.
  - rewrite Hrun. unfold bind at 1, catch. rewrite Hopen.
    assert (Hst5 : pools R5 = Some st) by (by rewrite Hp5).
    unfold bind at 1. rewrite (the_pools_eq _ _ _ _ HR5 Hst5).
    unfold bind, call, ret. by rewrite Hadd.
  - exact Hsk.
  - reflexivity.
  - reflexivity.
  - destruct (Hpool p eq_refl) as (P & HP & Hcfg). exists P. split; [exact HP|].
    destruct Hcfg as [->|Hfrom]; [exact Hsk|].
    cbn in Hfrom.
    destruct (lake_OpenPool (path R) config w4) as [res w'] eqn:Hop.
    cbn in Hfrom. subst res. by rewrite (Hbuilt _ _ _ Hop).
Qed.

End Properties.

(** * More properties *)

Section MoreProperties.

Context {C : Collaborators}.


(** *** The calls of [writeLakeMagic], [createConfig] and [loadConfig] *)

Ltac finish := cbn; rewrite <- ?app_assoc, ?length_insert; cbn;
  repeat split; try done; try lia.

(** Whatever the collaborators answer, [writeLakeMagic] makes a prefix of
    [write_calls], in order, and leaves the roots and the heap alone. *)
Lemma writeLakeMagic_run (s : State) (r : nat) (R : Root) :
  roots s !! r = Some R ->
  exists (n : nat) (res : result unit) (s' : State),
    writeLakeMagic r s = (res, s') /\
    trace s' = (trace s ++ take n (write_calls (path R)))%list /\
    (1 <= n <= length (write_calls (path R)))%nat /\
    (res = Ok tt -> 2 <= n)%nat /\
    res <> Panic /\
    roots s' = roots s /\
    heap s' = heap s.
Proof.
  intros HR.
  destruct (readLakeMagic_run s r R HR) as (res & Hrun & Hnp).
  unfold writeLakeMagic, write_calls, bind, catch. rewrite Hrun.
  destruct res as [[]|e|]; [|clear Hnp|contradiction].
  { exists 1%nat. do 2 eexists. split; [reflexivity|]. finish. }
  destruct (zngbytes_Serialize _) as [e'|b] eqn:Hser.
  { exists 1%nat. do 2 eexists. split; [reflexivity|]. finish. }
  unfold load_root, call, check, ret, fail. cbn. rewrite HR. cbn.
  destruct (engine_PutIfNotExists _ b _) as [[e1|] w1]; cbn.
  - destruct (error_is_var e1 storage_ErrNotSupported); cbn.
    + exists 3%nat. destruct (storage_Put _ b w1) as [[e2|] w2]; cbn;
        do 2 eexists; (split; [reflexivity|]); finish.
    + exists 2%nat. do 2 eexists. split; [reflexivity|]. finish.
  - exists 2%nat. do 2 eexists. split; [reflexivity|]. finish.
Qed.

(** [createConfig] makes a prefix of [create_calls]; it succeeds only after
    the fourth call, the conditional write of the magic file. *)
Lemma createConfig_run (s : State) (r : nat) (R : Root) :
  roots s !! r = Some R ->
  exists (n : nat) (res : result unit) (s' : State),
    createConfig r s = (res, s') /\
    trace s' = (trace s ++ take n (create_calls (path R)))%list /\
    (1 <= n <= length (create_calls (path R)))%nat /\
    (res = Ok tt -> 4 <= n)%nat /\
    res <> Panic /\
    length (roots s') = length (roots s) /\
    heap s' = heap s.
Proof.
  intros HR.
  unfold createConfig, create_calls, bind at 1. rewrite (load_root_eq _ _ _ HR).
  unfold bind at 1, call at 1.
  destruct (pools_CreateStore _ (world s)) as [res1 w1].
  unfold bind at 1. rewrite (set_pools_eq _ _ R); [|exact HR].
  destruct res1 as [e|ps].
  { exists 1%nat. do 2 eexists. split; [reflexivity|]. finish. }
  unfold bind at 1, call at 1. cbn [world].
  destruct (index_CreateStore _ w1) as [res2 w2].
  unfold bind at 1. cbn [value_or_nil].
  erewrite set_indexRules_eq; [|cbn; by apply (lookup_insert_same _ _ R)].
  cbn [world roots heap trace path poolCache pools indexRules].
  destruct res2 as [e|rs].
  { exists 2%nat. do 2 eexists. split; [reflexivity|]. finish. }
  cbn [value_or_nil].
  match goal with |- context [writeLakeMagic r ?st] =>
    destruct (writeLakeMagic_run st r
                (mkRoot (path R) (poolCache R) (Some ps) (Some rs)))
      as (n & res & s' & Hrun & Htr & Hn & Hok & Hnp & Hroots & Hheap)
  end.
  { cbn. rewrite list_insert_insert_eq. by apply (lookup_insert_same _ _ R). }
  exists (2 + n)%nat, res, s'. split; [exact Hrun|].
  cbn [path] in *. rewrite Htr, Hroots, Hheap.
  cbn; rewrite <- ?app_assoc, ?length_insert; cbn.
  repeat split; try done; try lia.
  all: try (intros H; apply Hok in H; lia).
  unfold write_calls in Hn. cbn in Hn. lia.
Qed.

(** [loadConfig] makes a prefix of [load_calls]; it succeeds only after all
    three, and then both stores of the root are set. *)
Lemma loadConfig_run (s : State) (r : nat) (R : Root) :
  roots s !! r = Some R ->
  exists (n : nat) (res : result unit) (s' : State) (R' : Root),
    loadConfig r s = (res, s') /\
    trace s' = (trace s ++ take n (load_calls (path R)))%list /\
    (1 <= n <= 3)%nat /\
    (res = Ok tt -> n = 3%nat /\ is_Some (pools R') /\ is_Some (indexRules R')) /\
    res <> Panic /\
    roots s' = <[r := R']> (roots s) /\
    path R' = path R /\
    poolCache R' = poolCache R /\
    heap s' = heap s.
Proof.
  intros HR.
  destruct (readLakeMagic_run s r R HR) as (res & Hrun & Hnp).
  unfold loadConfig, load_calls, bind at 1. rewrite Hrun.
  destruct res as [[]|e|]; [|clear Hnp|contradiction].
  2:{ exists 1%nat, (Err e). eexists. exists R. split; [reflexivity|]. finish.
      by rewrite list_insert_id. }
  unfold bind at 1, load_root. cbn [roots]. rewrite HR.
  unfold bind at 1, call at 1. cbn [world].
  destruct (pools_OpenStore _ _) as [res1 w1].
  unfold bind at 1. rewrite (set_pools_eq _ _ R); [|exact HR].
  destruct res1 as [e|ps].
  { exists 2%nat. do 3 eexists. split; [reflexivity|]. finish. }
  unfold bind at 1, call at 1. cbn [world].
  destruct (index_OpenStore _ w1) as [res2 w2].
  unfold bind at 1. cbn [value_or_nil].
  erewrite set_indexRules_eq; [|cbn; by apply (lookup_insert_same _ _ R)].
  cbn [world roots heap trace path poolCache pools indexRules].
  rewrite list_insert_insert_eq.
  destruct res2 as [e|rs].
  { exists 3%nat. do 3 eexists. split; [reflexivity|]. finish. }
  exists 3%nat. do 3 eexists. split; [reflexivity|]. finish.
Qed.


(** *** [Open], [Create] and [CreateOrOpen] *)

(** X1.  [Open] only reads: whatever the storage answers, its calls are a prefix
    of the read of the magic file, the opening of the pools store and the
    opening of the index-rules store, in that order; it never panics, never
    touches the heap of pools, and returns a root only after all three
    calls, the root then being new, at the given path, with an empty cache
    of 1024 entries and both stores set. *)
Theorem Open_calls (s : State) (path0 : URI) :
  exists (n : nat) (res : result nat) (s' : State),
    Open path0 s = (res, s') /\
    trace s' = (trace s ++ take n (load_calls path0))%list /\
    (1 <= n <= 3)%nat /\
    heap s' = heap s /\
    res <> Panic /\
    (forall r, res = Ok r ->
       n = 3%nat /\ r = length (roots s) /\
       exists R, roots s' !! r = Some R /\ path R = path0 /\
         poolCache R = lru_empty 1024 /\
         is_Some (pools R) /\ is_Some (indexRules R)).
Proof.
  unfold Open, bind at 1. rewrite newRoot_eq.
  unfold bind at 1, catch.
  match goal with |- context [loadConfig ?a ?st] =>
    destruct (loadConfig_run st a (mkRoot path0 (lru_empty 1024) None None))
      as (n & res & s' & R' & Hrun & Htr & Hn & Hok & Hnp & Hroots & Hpath
          & Hcache & Hheap)
  end.
  { apply lookup_snoc. }
  rewrite Hrun. cbn in Htr, Hroots, Hpath, Hcache, Hheap.
  rewrite insert_snoc in Hroots.
  destruct res as [[]|e|]; [| |contradiction].
  - exists n. do 2 eexists. split; [reflexivity|].
    split_and!; try done; try lia.
    intros r [= <-]. destruct (Hok eq_refl) as (Hn3 & Hp & Hi).
    split_and!; try done.
    exists R'. rewrite Hroots, lookup_snoc. done.
  - exists n. destruct (errors_Is e fs_ErrNotExist);
      do 2 eexists; (split; [reflexivity|]); split_and!; try done; try lia.
Qed.

(** X2.  [Create] first makes the calls of a load, then a prefix of the calls of
    [createConfig].  It creates nothing exactly when the lake loads, and the
    error then wraps [ErrExist]; it returns a root only after the fourth
    call of the creation; and no call before that one writes the magic
    file. *)
Theorem Create_calls (s : State) (path0 : URI) :
  exists (n m : nat) (res : result nat) (s' : State),
    Create path0 s = (res, s') /\
    trace s' =
      (trace s ++ take n (load_calls path0) ++ take m (create_calls path0))%list /\
    (1 <= n <= 3)%nat /\
    (m = 0%nat -> n = 3%nat /\ res = Err (errLakeExists path0)) /\
    (forall r, res = Ok r -> (4 <= m)%nat /\ r = length (roots s)) /\
    (forall ev, In ev (take n (load_calls path0) ++ take m (create_calls path0)) ->
       writes (JoinPath path0 LakeMagicFile) ev = true -> (4 <= m)%nat) /\
    res <> Panic /\
    heap s' = heap s.
Proof.
  assert (Hwr : forall n m ev,
    In ev (take n (load_calls path0) ++ take m (create_calls path0)) ->
    writes (JoinPath path0 LakeMagicFile) ev = true -> (4 <= m)%nat).
  { intros n m ev Hin Hw. apply in_app_or in Hin. destruct Hin as [Hin|Hin].
    - destruct n as [|[|[|n]]]; cbn in Hin; rewrite ?take_nil in Hin;
        repeat (destruct Hin as [<-|Hin]; [cbn in Hw; discriminate|]);
        destruct Hin.
    - unfold create_calls, write_calls in Hin.
      destruct m as [|[|[|[|m]]]]; [| | | |lia];
        destruct (zngbytes_Serialize _); cbn in Hin;
        repeat (destruct Hin as [<-|Hin]; [cbn in Hw; discriminate|]);
        destruct Hin. }
  unfold Create, bind at 1. rewrite newRoot_eq.
  unfold bind at 1, catch.
  match goal with |- context [loadConfig ?a ?st] =>
    destruct (loadConfig_run st a (mkRoot path0 (lru_empty 1024) None None))
      as (n & res & s1 & R' & Hrun & Htr & Hn & Hok & Hnp & Hroots & Hpath
          & Hcache & Hheap)
  end.
  { apply lookup_snoc. }
  rewrite Hrun. cbn in Htr, Hroots, Hpath, Hcache, Hheap.
  rewrite insert_snoc in Hroots.
  destruct res as [[]|e|]; [| |contradiction].
  - exists n, 0%nat. do 2 eexists. split; [reflexivity|].
    destruct (Hok eq_refl) as (-> & _).
    split_and!; try done; try lia; try (by rewrite app_nil_r); try apply Hwr.
  - unfold bind.
    destruct (createConfig_run s1 (length (roots s)) R')
      as (m & res2 & s2 & Hrun2 & Htr2 & Hm & Hok2 & Hnp2 & Hroots2 & Hheap2).
    { rewrite Hroots. apply lookup_snoc. }
    rewrite Hrun2. rewrite Hpath in *.
    exists n, m.
    destruct res2 as [[]|e2|]; [| |contradiction];
      do 2 eexists; (split; [reflexivity|]); cbn;
      rewrite ?Htr2, ?Htr, ?Hheap2, <- ?app_assoc;
      split_and!; try done; try lia; try apply Hwr.
    intros r [= <-]. split; [by apply Hok2|done].
Qed.

(** X3.  When the read of the magic file fails, [Open] stops after that one
    call.  An error that wraps [fs.ErrNotExist] is replaced by the path
    followed by [ErrNotExist], which no longer wraps [fs.ErrNotExist]; any
    other error is returned as it is. *)
Theorem Open_get_fails (s : State) (path0 : URI) (e : error) (w : World) :
  engine_Get (JoinPath path0 LakeMagicFile) (world s) = (inl e, w) ->
  Open path0 s =
    (Err (if errors_Is e fs_ErrNotExist then errLakeNotExist path0 else e),
     mkState w (roots s ++ [mkRoot path0 (lru_empty 1024) None None]) (heap s)
       (trace s ++ [EvGet (JoinPath path0 LakeMagicFile)])) /\
  errors_Is (errLakeNotExist path0) lake_ErrNotExist = true /\
  errors_Is (errLakeNotExist path0) fs_ErrNotExist = false /\
  Error strconv_Quote foreign_text (errLakeNotExist path0) =
    path0 ++ ": lake does not exist".
Proof.
  intros HG. split; [|by split_and!].
  unfold Open, loadConfig, readLakeMagic, newRoot, lru_NewARC, new_root,
    load_root, bind, catch, call, unwrap, ret, fail.
  cbn. rewrite lookup_snoc. cbn. rewrite HG. cbn.
  by destruct (errors_Is e fs_ErrNotExist).
Qed.

(** X4.  [writeLakeMagic] on a root whose magic file holds the magic record:
    it fails after the read, without a write.  The error is a new value with
    the text of [ErrExist], not [ErrExist] itself: [errors.Is] does not
    find it. *)
Theorem writeLakeMagic_exists (s : State) (r : nat) (R : Root) (b : Bytes)
  (w : World) (v : zed_Value) :
  roots s !! r = Some R ->
  engine_Get (JoinPath (path R) LakeMagicFile) (world s) = (inr b, w) ->
  zngio_records b = [inr v] ->
  zson_UnmarshalZNG (Some v) = inr (mkLakeMagic LakeMagicString Version) ->
  writeLakeMagic r s =
    (Err (ErrorsNew "lake already exists"),
     mkState w (roots s) (heap s)
       (trace s ++ [EvGet (JoinPath (path R) LakeMagicFile)])) /\
  errors_Is (ErrorsNew "lake already exists") lake_ErrExist = false /\
  Error strconv_Quote foreign_text (ErrorsNew "lake already exists") =
    Error strconv_Quote foreign_text (Sentinel lake_ErrExist).
Proof.
  intros HR HG Hz Hu. split; [|by split].
  destruct (readLakeMagic_got s r R b w HR HG) as [_ H1].
  unfold writeLakeMagic, bind, catch. rewrite (H1 _ _ Hz Hu). reflexivity.
Qed.

(** X5.  [CreateOrOpen] creates only a lake that does not exist: on a magic file
    with a second record, or with one record of another magic string or
    version, it returns what [Open] returns, after the single read, and the
    error does not wrap [ErrNotExist]. *)
Theorem CreateOrOpen_broken_lake (s : State) (path0 : URI) (b : Bytes)
  (w : World) :
  engine_Get (JoinPath path0 LakeMagicFile) (world s) = (inr b, w) ->
  (exists v1 v2 rest, zngio_records b = inr v1 :: inr v2 :: rest) \/
  (exists v m, zngio_records b = [inr v] /\
     zson_UnmarshalZNG (Some v) = inr m /\
     (Magic m <> LakeMagicString \/ Version_ m <> Version)) ->
  exists e,
    CreateOrOpen path0 s =
      (Err e,
       mkState w (roots s ++ [mkRoot path0 (lru_empty 1024) None None])
         (heap s) (trace s ++ [EvGet (JoinPath path0 LakeMagicFile)])) /\
    Open path0 s = CreateOrOpen path0 s /\
    errors_Is e lake_ErrNotExist = false.
Proof.
  intros HG Hcase.
  pose (s0 := mkState (world s)
                (roots s ++ [mkRoot path0 (lru_empty 1024) None None])
                (heap s) (trace s)).
  assert (HR : roots s0 !! length (roots s) =
               Some (mkRoot path0 (lru_empty 1024) None None))
    by apply lookup_snoc.
  destruct (readLakeMagic_got s0 _ _ b w HR HG) as [H2 H1].
  assert (Hgen : forall e,
    readLakeMagic (length (roots s)) s0 =
      (Err e, mkState w (roots s0) (heap s0)
                (trace s0 ++ [EvGet (JoinPath path0 LakeMagicFile)])) ->
    errors_Is e fs_ErrNotExist = false ->
    errors_Is e lake_ErrNotExist = false ->
    CreateOrOpen path0 s =
      (Err e,
       mkState w (roots s ++ [mkRoot path0 (lru_empty 1024) None None])
         (heap s) (trace s ++ [EvGet (JoinPath path0 LakeMagicFile)])) /\
    Open path0 s = CreateOrOpen path0 s /\
    errors_Is e lake_ErrNotExist = false).
  { intros e Hr Hfs Hlake.
    pose proof (Open_magic_fails s _ path0 e Hr Hfs) as Hopen.
    unfold CreateOrOpen, bind, catch. rewrite Hopen. cbn. rewrite Hlake.
    done. }
  destruct Hcase as [(v1 & v2 & rest & Hz) | (v & m & Hz & Hu & Hbad)].
  - eexists. apply Hgen; [by rewrite (H2 _ _ _ Hz)|done|done].
  - rewrite (H1 v m Hz Hu) in Hgen. cbn [path] in Hgen.
    destruct (String.eqb_spec (Magic m) LakeMagicString) as [Heq|Hne]; cbn in Hgen.
    + destruct (Z.eqb_spec (Version_ m) Version) as [Hv|Hv]; cbn in Hgen.
      * destruct Hbad; contradiction.
      * eexists. by apply Hgen.
    + eexists. by apply Hgen.
Qed.

(** X6.  [CreateOrOpen] on a path with no magic file: [Open] fails with
    [ErrNotExist], and [Create] runs in full.  The result is the second of
    two new roots; the first, made by [Open], stays behind without
    stores. *)
Theorem CreateOrOpen_creates (s : State) (path0 : URI) (e1 e2 e3 : error)
  (w1 w2 w3 w4 w5 w6 : World) (ps : pools_Store) (rs : index_Store)
  (b : Bytes) :
  engine_Get (JoinPath path0 LakeMagicFile) (world s) = (inl e1, w1) ->
  errors_Is e1 fs_ErrNotExist = true ->
  engine_Get (JoinPath path0 LakeMagicFile) w1 = (inl e2, w2) ->
  pools_CreateStore (JoinPath path0 PoolsTag) w2 = (inr ps, w3) ->
  index_CreateStore (JoinPath path0 IndexRulesTag) w3 = (inr rs, w4) ->
  engine_Get (JoinPath path0 LakeMagicFile) w4 = (inl e3, w5) ->
  zngbytes_Serialize (mkLakeMagic LakeMagicString Version) = inr b ->
  engine_PutIfNotExists (JoinPath path0 LakeMagicFile) b w5 = (None, w6) ->
  CreateOrOpen path0 s =
    (Ok (S (length (roots s))),
     mkState w6
       (roots s ++
        [mkRoot path0 (lru_empty 1024) None None;
         mkRoot path0 (lru_empty 1024) (Some ps) (Some rs)])
       (heap s)
       (trace s ++
        [EvGet (JoinPath path0 LakeMagicFile);
         EvGet (JoinPath path0 LakeMagicFile);
         EvPoolsCreateStore (JoinPath path0 PoolsTag);
         EvIndexCreateStore (JoinPath path0 IndexRulesTag);
         EvGet (JoinPath path0 LakeMagicFile);
         EvPutIfNotExists (JoinPath path0 LakeMagicFile) b])).
Proof.
  intros HG1 Hne HG2 HP HI HG3 Hser Hput.
  assert (HC : forall s1, world s1 = w1 ->
    Create path0 s1 =
      (Ok (length (roots s1)),
       mkState w6
         (roots s1 ++ [mkRoot path0 (lru_empty 1024) (Some ps) (Some rs)])
         (heap s1)
         (trace s1 ++
          [EvGet (JoinPath path0 LakeMagicFile);
           EvPoolsCreateStore (JoinPath path0 PoolsTag);
           EvIndexCreateStore (JoinPath path0 IndexRulesTag);
           EvGet (JoinPath path0 LakeMagicFile);
           EvPutIfNotExists (JoinPath path0 LakeMagicFile) b]))).
  { intros s1 Hw.
    unfold Create, createConfig, loadConfig, writeLakeMagic, readLakeMagic,
      newRoot, lru_NewARC, set_pools, set_indexRules, new_root, load_root,
      store_root, bind, catch, call, check, unwrap, ret, fail.
    cbn. rewrite lookup_snoc. cbn. rewrite Hw, HG2. cbn.
    rewrite lookup_snoc. cbn. rewrite HP. cbn.
    rewrite lookup_snoc. cbn. rewrite lookup_snoc, insert_snoc. cbn.
    rewrite HI. cbn. rewrite lookup_snoc. cbn.
    rewrite lookup_snoc, insert_snoc. cbn. rewrite lookup_snoc. cbn.
    rewrite HG3. cbn. rewrite Hser. cbn. rewrite lookup_snoc. cbn.
    rewrite Hput. cbn.
    repeat rewrite <- app_assoc. reflexivity. }
  assert (HO : Open path0 s =
    (Err (errLakeNotExist path0),
     mkState w1 (roots s ++ [mkRoot path0 (lru_empty 1024) None None])
       (heap s) (trace s ++ [EvGet (JoinPath path0 LakeMagicFile)]))).
  { unfold Open, loadConfig, readLakeMagic, newRoot, lru_NewARC, new_root,
      load_root, bind, catch, call, unwrap, ret, fail.
    cbn. rewrite lookup_snoc. cbn. rewrite HG1. cbn. by rewrite Hne. }
  unfold CreateOrOpen, bind, catch. rewrite HO. cbn.
  rewrite HC by reflexivity. cbn.
  rewrite length_app, Nat.add_1_r.
  repeat rewrite <- app_assoc. reflexivity.
Qed.

(** [readLakeMagic] on a magic file that holds the magic record. *)
Lemma readLakeMagic_valid (s : State) (r : nat) (R : Root) (b : Bytes)
  (w : World) (v : zed_Value) :
  roots s !! r = Some R ->
  engine_Get (JoinPath (path R) LakeMagicFile) (world s) = (inr b, w) ->
  zngio_records b = [inr v] ->
  zson_UnmarshalZNG (Some v) = inr (mkLakeMagic LakeMagicString Version) ->
  readLakeMagic r s =
    (Ok tt,
     mkState w (roots s) (heap s)
       (trace s ++ [EvGet (JoinPath (path R) LakeMagicFile)])).
Proof.
  intros HR HG Hz Hu.
  destruct (readLakeMagic_got s r R b w HR HG) as [_ H1].
  by rewrite (H1 _ _ Hz Hu).
Qed.

(** X7.  [CreateOrOpen] on a lake whose magic file is valid but whose pools store
    does not open: [Open] reports the missing store as a lake that does not
    exist, so [Create] runs; it creates both stores and only then fails in
    [writeLakeMagic], with the error "lake already exists". *)
Theorem CreateOrOpen_missing_journal (s : State) (path0 : URI)
  (b1 b2 b3 : Bytes) (v1 v2 v3 : zed_Value) (e1 e2 : error)
  (w1 w2 w3 w4 w5 w6 w7 : World) (ps : pools_Store) (rs : index_Store) :
  engine_Get (JoinPath path0 LakeMagicFile) (world s) = (inr b1, w1) ->
  zngio_records b1 = [inr v1] ->
  zson_UnmarshalZNG (Some v1) = inr (mkLakeMagic LakeMagicString Version) ->
  pools_OpenStore (JoinPath path0 PoolsTag) w1 = (inl e1, w2) ->
  errors_Is e1 fs_ErrNotExist = true ->
  engine_Get (JoinPath path0 LakeMagicFile) w2 = (inr b2, w3) ->
  zngio_records b2 = [inr v2] ->
  zson_UnmarshalZNG (Some v2) = inr (mkLakeMagic LakeMagicString Version) ->
  pools_OpenStore (JoinPath path0 PoolsTag) w3 = (inl e2, w4) ->
  pools_CreateStore (JoinPath path0 PoolsTag) w4 = (inr ps, w5) ->
  index_CreateStore (JoinPath path0 IndexRulesTag) w5 = (inr rs, w6) ->
  engine_Get (JoinPath path0 LakeMagicFile) w6 = (inr b3, w7) ->
  zngio_records b3 = [inr v3] ->
  zson_UnmarshalZNG (Some v3) = inr (mkLakeMagic LakeMagicString Version) ->
  Open path0 s =
    (Err (errLakeNotExist path0),
     mkState w2 (roots s ++ [mkRoot path0 (lru_empty 1024) None None])
       (heap s)
       (trace s ++
        [EvGet (JoinPath path0 LakeMagicFile);
         EvPoolsOpenStore (JoinPath path0 PoolsTag)])) /\
  CreateOrOpen path0 s =
    (Err (ErrorsNew "lake already exists"),
     mkState w7
       (roots s ++
        [mkRoot path0 (lru_empty 1024) None None;
         mkRoot path0 (lru_empty 1024) (Some ps) (Some rs)])
       (heap s)
       (trace s ++
        [EvGet (JoinPath path0 LakeMagicFile);
         EvPoolsOpenStore (JoinPath path0 PoolsTag);
         EvGet (JoinPath path0 LakeMagicFile);
         EvPoolsOpenStore (JoinPath path0 PoolsTag);
         EvPoolsCreateStore (JoinPath path0 PoolsTag);
         EvIndexCreateStore (JoinPath path0 IndexRulesTag);
         EvGet (JoinPath path0 LakeMagicFile)])).
Proof.
  intros HG1 Hz1 Hu1 HO1 Hne HG2 Hz2 Hu2 HO2 HP HI HG3 Hz3 Hu3.
  assert (HL : forall s0 b v wa e wb,
    world s0 = wa ->
    engine_Get (JoinPath path0 LakeMagicFile) wa = (inr b, wb) ->
    zngio_records b = [inr v] ->
    zson_UnmarshalZNG (Some v) = inr (mkLakeMagic LakeMagicString Version) ->
    forall wc, pools_OpenStore (JoinPath path0 PoolsTag) wb = (inl e, wc) ->
    loadConfig (length (roots s0))
      (mkState (world s0)
         (roots s0 ++ [mkRoot path0 (lru_empty 1024) None None]) (heap s0)
         (trace s0)) =
      (Err e,
       mkState wc (roots s0 ++ [mkRoot path0 (lru_empty 1024) None None])
         (heap s0)
         (trace s0 ++
          [EvGet (JoinPath path0 LakeMagicFile);
           EvPoolsOpenStore (JoinPath path0 PoolsTag)]))).
  { intros s0 b v wa e wb Hw HG Hz Hu wc HO.
    unfold loadConfig, bind at 1.
    erewrite readLakeMagic_valid;
      [|apply lookup_snoc|cbn; rewrite Hw; exact HG|exact Hz|exact Hu].
    unfold set_pools, load_root, store_root, bind, call, fail.
    cbn. rewrite lookup_snoc. cbn. rewrite HO. cbn.
    rewrite lookup_snoc. cbn. rewrite lookup_snoc, insert_snoc. cbn.
    by rewrite <- app_assoc. }
  assert (HOpen : Open path0 s =
    (Err (errLakeNotExist path0),
     mkState w2 (roots s ++ [mkRoot path0 (lru_empty 1024) None None])
       (heap s)
       (trace s ++
        [EvGet (JoinPath path0 LakeMagicFile);
         EvPoolsOpenStore (JoinPath path0 PoolsTag)]))).
  { unfold Open, bind at 1. rewrite newRoot_eq. unfold bind, catch.
    rewrite (HL s b1 v1 (world s) e1 w1 eq_refl HG1 Hz1 Hu1 w2 HO1).
    cbn. by rewrite Hne. }
  split; [exact HOpen|].
  unfold CreateOrOpen, bind at 1, catch. rewrite HOpen. cbv beta iota.
  assert (Hwrap : errors_Is (errLakeNotExist path0) lake_ErrNotExist = true)
    by reflexivity.
  rewrite Hwrap.
  unfold Create, bind at 1. rewrite newRoot_eq. unfold bind at 1, catch.
  match goal with |- context [loadConfig _ ?st] =>
    pose proof (HL (mkState w2
                     (roots s ++ [mkRoot path0 (lru_empty 1024) None None])
                     (heap s)
                     (trace s ++
                      [EvGet (JoinPath path0 LakeMagicFile);
                       EvPoolsOpenStore (JoinPath path0 PoolsTag)]))
                  b2 v2 w2 e2 w3 eq_refl HG2 Hz2 Hu2 w4 HO2) as HL2
  end.
  cbn [world roots heap trace] in HL2 |- *. rewrite HL2.
  remember (roots s ++ [mkRoot path0 (lru_empty 1024) None None])%list
    as l1 eqn:Hl1.
  unfold createConfig, writeLakeMagic, set_pools, set_indexRules, load_root,
    store_root, bind, catch, call, check, ret, fail.
  cbn. rewrite lookup_snoc. cbn. rewrite HP. cbn. rewrite lookup_snoc. cbn.
  rewrite lookup_snoc, insert_snoc. cbn. rewrite HI. cbn.
  rewrite lookup_snoc. cbn. rewrite lookup_snoc, insert_snoc. cbn.
  erewrite readLakeMagic_valid;
    [|apply lookup_snoc|cbn; exact HG3|exact Hz3|exact Hu3].
  cbn. subst l1.
  repeat rewrite <- app_assoc. reflexivity.
Qed.


(** *** [NewConfig] and the calls of [CreatePool] *)

Lemma one_key (sortKey : SortKey) :
  (length (Keys sortKey) <= 1)%nat ->
  length (Keys (if IsNil sortKey then ts_desc else sortKey)) = 1%nat.
Proof.
  unfold IsNil. destruct (Keys sortKey) as [|k [|k' l]] eqn:HK; cbn.
  - done.
  - intros _. by rewrite HK.
  - lia.
Qed.

(** X8.  [NewConfig] always returns a config: its key is the name, its sort key
    is never nil, its threshold and seek stride are not zero when the
    defaults are not, and defaulting is idempotent: [NewConfig] on the
    fields of the config returns, from the same state, the same config. *)
Theorem NewConfig_well_formed (s : State) (name : string) (sortKey : SortKey)
  (thresh seekStride : Z) :
  exists cfg s',
    NewConfig name sortKey thresh seekStride s = (Ok cfg, s') /\
    Key cfg = name /\
    IsNil (SortKey_ cfg) = false /\
    (data_DefaultThreshold <> 0 -> Threshold cfg <> 0) /\
    (data_DefaultSeekStride <> 0 -> SeekStride cfg <> 0) /\
    NewConfig name (SortKey_ cfg) (Threshold cfg) (SeekStride cfg) s =
      (Ok cfg, s').
Proof.
  eexists _, _. split; [apply NewConfig_run|].
  cbn [Key Name SortKey_ Threshold SeekStride fst snd].
  assert (Hnil : IsNil (if IsNil sortKey then ts_desc else sortKey) = false).
  { destruct (IsNil sortKey) eqn:H; [reflexivity|exact H]. }
  split_and!; try done.
  - destruct (Z.eqb_spec thresh 0); done.
  - destruct (Z.eqb_spec seekStride 0); done.
  - rewrite NewConfig_run. rewrite Hnil. do 3 f_equal.
    + destruct (Z.eqb_spec seekStride 0) as [->|Hne]; cbn.
      * by destruct (Z.eqb_spec data_DefaultSeekStride 0) as [->|].
      * by destruct (Z.eqb_spec seekStride 0).
    + destruct (Z.eqb_spec thresh 0) as [->|Hne]; cbn.
      * by destruct (Z.eqb_spec data_DefaultThreshold 0) as [->|].
      * by destruct (Z.eqb_spec thresh 0).
Qed.

Ltac only_event Hin :=
  cbn in Hin;
  repeat (destruct Hin as [Hin|Hin]; [try discriminate Hin|]);
  try (exfalso; exact Hin).

Ltac adds_case :=
  let c := fresh "c" in let Hin := fresh "Hin" in
  intros c Hin; only_event Hin;
  try (injection Hin as <-; split_and!; try done; by eexists).

Ltac removes_case :=
  let root := fresh "root" in let c := fresh "c" in let Hin := fresh "Hin" in
  intros root c Hin; first [by eexists | only_event Hin].

Ltac not_ok_case :=
  let q := fresh "q" in let Hq := fresh "Hq" in
  intros q Hq; discriminate Hq.

(** X9.  The calls of [CreatePool], whatever the collaborators answer: an entry
    is added to the pools store only for a name other than HEAD, with that
    name and exactly one key, and only after the lookup of the name, the
    clock, the identifier and the package-level [CreatePool], in that order;
    a pool is returned only when the last call is that [Add]; and whenever
    the package-level [RemovePool] is called, an error is returned. *)
Theorem CreatePool_calls (s : State) (r : nat) (R : Root) (st : pools_Store)
  (name : string) (sortKey : SortKey) (seekStride thresh : Z) :
  roots s !! r = Some R ->
  pools R = Some st ->
  exists (tr : list event) (res : result nat) (s' : State),
    CreatePool r name sortKey seekStride thresh s = (res, s') /\
    trace s' = (trace s ++ tr)%list /\
    (forall c, In (EvAdd c) tr ->
       name <> "HEAD" /\ Name c = name /\
       length (Keys (SortKey_ c)) = 1%nat /\
       exists post,
         tr = ([EvLookupByName name; EvNow; EvNewID;
                EvCreatePool (path R) c] ++ post)%list) /\
    (forall p, res = Ok p -> exists c pre, tr = (pre ++ [EvAdd c])%list) /\
    (forall root c, In (EvRemovePool root c) tr -> exists e, res = Err e).
Proof.
  intros HR Hst. unfold CreatePool.
  destruct (String.eqb_spec name "HEAD") as [Heq|Hname].
  { exists []. do 2 eexists. split; [reflexivity|]. cbn.
    rewrite app_nil_r. split; [reflexivity|].
    split; [adds_case|split; [not_ok_case|removes_case]]. }
  unfold bind at 1. rewrite (the_pools_eq _ _ _ _ HR Hst).
  unfold bind at 1, call at 1.
  destruct (Store_LookupByName st name (world s)) as [[c0|] w1].
  { exists [EvLookupByName name]. do 2 eexists. split; [reflexivity|].
    split; [reflexivity|].
    split; [adds_case|split; [not_ok_case|removes_case]]. }
  destruct (Z.ltb_spec 1 (Z.of_nat (length (Keys sortKey)))) as [Hlt|Hkeys].
  { exists [EvLookupByName name]. do 2 eexists. split; [reflexivity|].
    split; [reflexivity|].
    split; [adds_case|split; [not_ok_case|removes_case]]. }
  unfold bind at 1. rewrite NewConfig_run. cbn [world roots heap trace].
  set (config := mkConfig _ name _ _ _ _).
  assert (Hcfg : Name config = name /\
                 length (Keys (SortKey_ config)) = 1%nat).
  { split; [reflexivity|]. cbn. apply one_key. lia. }
  destruct Hcfg as [Hcn Hck].
  clearbody config.
  unfold bind at 1, load_root. cbn [roots]. rewrite HR.
  unfold bind at 1, bind at 1, call at 1. cbn [world roots heap trace].
  destruct (lake_CreatePool (path R) config _) as [[e|] w4]; cbn [check].
  { exists [EvLookupByName name; EvNow; EvNewID; EvCreatePool (path R) config].
    do 2 eexists. split; [reflexivity|]. cbn. rewrite <- !app_assoc. cbn.
    split; [reflexivity|].
    split; [adds_case|split; [not_ok_case|removes_case]]. }
  unfold ret at 1. unfold bind at 1, catch.
  match goal with |- context [openPool r config ?s4] =>
    destruct (openPool r config s4) as [res5 s5] eqn:Hopen;
    destruct (openPool_run s4 s5 r R config res5 HR Hopen)
      as ((R5 & HR5 & _ & Hp5) & Htr5 & _)
  end.
  cbn [world roots heap trace] in Htr5. rewrite <- !app_assoc in Htr5.
  cbn in Htr5.
  assert (Hst5 : pools R5 = Some st) by (by rewrite Hp5).
  destruct res5 as [p|e|].
  - unfold bind at 1. rewrite (the_pools_eq _ _ _ _ HR5 Hst5).
    unfold bind at 1, call at 1.
    destruct (Store_Add st config (world s5)) as [[e|] w6].
    + unfold bind, call, fail. cbn [world roots heap trace].
      destruct (lake_RemovePool (path R) config w6) as [rm w7].
      destruct Htr5 as [[_ Htr]|[_ Htr]]; eexists; do 2 eexists;
        (split; [reflexivity|]); cbn; rewrite Htr, <- !app_assoc; cbn;
        (split; [reflexivity|]);
        (split; [adds_case|split; [not_ok_case|removes_case]]).
    + destruct Htr5 as [[_ Htr]|[_ Htr]]; eexists; do 2 eexists;
        (split; [reflexivity|]); cbn; rewrite Htr, <- !app_assoc; cbn;
        (split; [reflexivity|]);
        (split; [adds_case|split; [|removes_case]]).
      * intros q _. exists config.
        by exists [EvLookupByName name; EvNow; EvNewID;
                   EvCreatePool (path R) config].
      * intros q _. exists config.
        by exists [EvLookupByName name; EvNow; EvNewID;
                   EvCreatePool (path R) config; EvOpenPool (path R) config].
  - unfold bind, call, fail. cbn [world roots heap trace].
    destruct (lake_RemovePool (path R) config (world s5)) as [rm w7].
    destruct Htr5 as [[_ Htr]|[_ Htr]]; eexists; do 2 eexists;
      (split; [reflexivity|]); cbn; rewrite Htr, <- ?app_assoc; cbn;
      (split; [reflexivity|]);
      (split; [adds_case|split; [not_ok_case|removes_case]]).
  - destruct Htr5 as [[_ Htr]|[_ Htr]]; eexists; do 2 eexists;
      (split; [reflexivity|]); cbn; rewrite Htr; cbn;
      (split; [reflexivity|]);
      (split; [adds_case|split; [not_ok_case|removes_case]]).
Qed.


(** *** [OpenPool], [PoolID], [SortKey] and [RemovePool] *)

(** X10.  [OpenPool] never changes a pool that exists: every address of the heap
    keeps its pool; a pool it returns is at a new address, the next one; an
    error leaves the heap as it was; and when the lookup of the identifier
    fails, that error is returned after the one call. *)
Theorem OpenPool_fresh (s : State) (r : nat) (R : Root) (st : pools_Store)
  (id : KSUID) :
  roots s !! r = Some R ->
  pools R = Some st ->
  exists (res : result nat) (s' : State),
    OpenPool r id s = (res, s') /\
    (forall q P, heap s !! q = Some P -> heap s' !! q = Some P) /\
    (forall p, res = Ok p ->
       p = length (heap s) /\ length (heap s') = S (length (heap s))) /\
    (forall e, res = Err e -> heap s' = heap s) /\
    (forall e w, Store_LookupByID st id (world s) = (inl e, w) ->
       res = Err e /\ roots s' = roots s /\
       trace s' = (trace s ++ [EvLookupByID id])%list).
Proof.
  intros HR Hst. unfold OpenPool, bind at 1.
  rewrite (the_pools_eq _ _ _ _ HR Hst). unfold bind at 1, call at 1.
  destruct (Store_LookupByID st id (world s)) as [[e|c] w1].
  { do 2 eexists. split; [reflexivity|]. cbn.
    split_and!; try done. by intros e0 w [= <- <-]. }
  unfold bind at 1, unwrap, ret.
  set (s1 := mkState w1 (roots s) (heap s) (trace s ++ [EvLookupByID id])).
  assert (HR1 : roots s1 !! r = Some R) by exact HR.
  destruct (lru_Get (ID c) (poolCache R)) as [[p|] cache] eqn:Hget.
  - destruct (heap s !! p) as [P|] eqn:HP.
    + rewrite (openPool_hit s1 r R c p cache P HR1 Hget HP).
      do 2 eexists. split; [reflexivity|]. cbn.
      split_and!; try done.
      * intros q Q HQ. by apply lookup_app_l_Some.
      * intros q [= <-]. by rewrite length_app, Nat.add_1_r.
    + unfold openPool, bind. rewrite (load_root_eq _ _ _ HR1), Hget.
      rewrite (set_poolCache_eq _ _ _ _ HR1).
      unfold load_pool. cbn. rewrite HP.
      do 2 eexists. split; [reflexivity|]. cbn. split_and!; done.
  - rewrite (openPool_miss s1 r R c cache HR1 Hget). cbn [world s1].
    destruct (lake_OpenPool (path R) c w1) as [[e|P] w2]; cbn.
    + do 2 eexists. split; [reflexivity|]. cbn. split_and!; done.
    + do 2 eexists. split; [reflexivity|]. cbn.
      split_and!; try done.
      * intros q Q HQ. by apply lookup_app_l_Some.
      * intros q [= <-]. by rewrite length_app, Nat.add_1_r.
Qed.

Context {X : MoreCollaborators}.


(** X11.  [PoolID]: the empty name is an error, with no call; a name that parses
    as an identifier is that identifier, with no call and without a test
    that such a pool exists; any other name is looked up in the pools
    store, and is the identifier of the config found or an error that wraps
    [pools.ErrNotFound]. *)
Theorem PoolID_resolution (s : State) (r : nat) (R : Root) (st : pools_Store) :
  roots s !! r = Some R ->
  pools R = Some st ->
  PoolID r "" s = (Err (ErrorsNew "no pool name given"), s) /\
  (forall name id, name <> "" -> ksuid_Parse name = inr id ->
     PoolID r name s = (Ok id, s)) /\
  (forall name e, name <> "" -> ksuid_Parse name = inl e ->
     PoolID r name s =
       (match fst (Store_LookupByName st name (world s)) with
        | Some c => Ok (ID c)
        | None => Err (errPoolNotFound name)
        end,
        mkState (snd (Store_LookupByName st name (world s))) (roots s)
          (heap s) (trace s ++ [EvLookupByName name])) /\
     errors_Is (errPoolNotFound name) pools_ErrNotFound = true).
Proof.
  intros HR Hst. split; [reflexivity|]. split.
  - intros name id Hne Hparse. unfold PoolID.
    destruct (String.eqb_spec name ""); [contradiction|]. by rewrite Hparse.
  - intros name e Hne Hparse. split; [|reflexivity]. unfold PoolID.
    destruct (String.eqb_spec name ""); [contradiction|]. rewrite Hparse.
    unfold bind. rewrite (the_pools_eq _ _ _ _ HR Hst). unfold call.
    by destruct (Store_LookupByName st name (world s)) as [[c|] w].
Qed.

(** X12.  [SortKey] never fails: it returns [order.Nil] or the sort key of a
    config that the lookup by identifier found, and it keeps the roots and
    the heap; for a [CommitMetaScan] that is not a tap, and for the
    operators it does not know, it returns [order.Nil] without a call. *)
Theorem Root_SortKey_total (s : State) (r : nat) (R : Root)
  (st : pools_Store) (src : dag_Op) :
  roots s !! r = Some R ->
  pools R = Some st ->
  exists (k : SortKey) (s' : State),
    Root_SortKey r src s = (Ok k, s') /\
    roots s' = roots s /\ heap s' = heap s /\
    (k = order_Nil \/
     exists id c w,
       Store_LookupByID st id (world s) = (inr c, w) /\ k = SortKey_ c) /\
    (src = OtherOp \/ (exists id, src = CommitMetaScan id false) ->
     k = order_Nil /\ s' = s).
Proof.
  intros HR Hst.
  assert (Hof : forall id, exists k s',
    sortKeyOf r id s = (Ok k, s') /\ roots s' = roots s /\ heap s' = heap s /\
    (k = order_Nil \/
     exists id c w,
       Store_LookupByID st id (world s) = (inr c, w) /\ k = SortKey_ c)).
  { intros id. unfold sortKeyOf, bind.
    rewrite (the_pools_eq _ _ _ _ HR Hst). unfold call, ret.
    destruct (Store_LookupByID st id (world s)) as [[e|c] w] eqn:Hl;
      do 2 eexists; (split; [reflexivity|]); split_and!; try done.
    - by left.
    - right. by exists id, c, w. }
  destruct src as [id|id|id|id [|]|]; cbn.
  1-4: destruct (Hof id) as (k & s' & Hrun & Hr & Hh & Hk);
       exists k, s'; split_and!; try done;
       intros [Ho|[id' Ho]]; discriminate.
  - exists order_Nil, s. split_and!; try done; by left.
  - exists order_Nil, s. split_and!; try done; by left.
Qed.

(** X13.  [RemovePool] removes the entry of the pools store first.  When that
    fails, the error is returned and neither the cache nor the storage of
    the pool is touched; when it succeeds, the identifier leaves the cache,
    the package-level [RemovePool] is called, and its result is the
    result. *)
Theorem RemovePool_entry_first (s : State) (r : nat) (R : Root)
  (st : pools_Store) (id : KSUID) (c : Config) (w1 w2 : World)
  (err : option error) :
  roots s !! r = Some R ->
  pools R = Some st ->
  Store_LookupByID st id (world s) = (inr c, w1) ->
  Store_Remove st c w1 = (err, w2) ->
  (forall e, err = Some e ->
     RemovePool r id s =
       (Err e,
        mkState w2 (roots s) (heap s) (trace s ++ [EvLookupByID id]))) /\
  (err = None ->
     RemovePool r id s =
       (match fst (lake_RemovePool (path R) c w2) with
        | Some e => Err e
        | None => Ok tt
        end,
        mkState (snd (lake_RemovePool (path R) c w2))
          (<[r := mkRoot (path R) (lru_Remove (ID c) (poolCache R)) (pools R)
                    (indexRules R)]> (roots s))
          (heap s)
          (trace s ++ [EvLookupByID id; EvRemovePool (path R) c]))).
Proof.
  intros HR Hst Hlook Hrem.
  assert (Hstart :
    RemovePool r id s =
    bind (check err)
      (fun _ =>
         R <- load_root r ;;
         set_poolCache r (lru_Remove (ID c) (poolCache R)) ;;;
         R <- load_root r ;;
         err <- call (EvRemovePool (path R) c) (lake_RemovePool (path R) c) ;;
         check err)
      (mkState w2 (roots s) (heap s) (trace s ++ [EvLookupByID id]))).
  { unfold RemovePool, bind at 1. rewrite (the_pools_eq _ _ _ _ HR Hst).
    unfold bind at 1, call at 1. rewrite Hlook. unfold bind at 1, unwrap, ret.
    unfold bind at 1. erewrite the_pools_eq; [|exact HR|exact Hst].
    unfold bind at 1, effect. cbn [world roots heap trace]. by rewrite Hrem. }
  rewrite Hstart. split.
  - intros e ->. reflexivity.
  - intros ->.
    unfold check, bind at 1, ret. unfold bind at 1, load_root.
    cbn [roots]. rewrite HR.
    unfold bind at 1. erewrite set_poolCache_eq; [|exact HR].
    unfold bind, load_root, call. cbn.
    rewrite (lookup_insert_same _ _ _ _ HR). cbn.
    destruct (lake_RemovePool (path R) c w2) as [[e|] w3]; cbn;
      by rewrite <- app_assoc.
Qed.


(** *** The index rules *)

Lemma the_indexRules_eq (s : State) (r : nat) (R : Root) (st : index_Store) :
  roots s !! r = Some R -> indexRules R = Some st ->
  the_indexRules r s = (Ok st, s).
Proof.
  intros H Hp. unfold the_indexRules, bind. rewrite (load_root_eq _ _ _ H).
  by rewrite Hp.
Qed.

Lemma bind_assoc {A B D} (m : M A) (k1 : A -> M B) (k2 : B -> M D)
  (s : State) :
  bind (bind m k1) k2 s = bind m (fun a => bind (k1 a) k2) s.
Proof. unfold bind. by destruct (m s) as [[a|e|] s']. Qed.

Lemma bind_ext {A B} (m : M A) (k k' : A -> M B) (s : State) :
  (forall a s', k a s' = k' a s') -> bind m k s = bind m k' s.
Proof. intros H. unfold bind. destruct (m s) as [[a|e|] s']; [apply H|done..]. Qed.

(** [AddIndexRules] on a concatenation: the first part, then the second. *)
Lemma AddIndexRules_app (r : nat) (a b : list index_Rule) (s : State) :
  AddIndexRules r (a ++ b) s =
    bind (AddIndexRules r a) (fun _ => AddIndexRules r b) s.
Proof.
  revert s. induction a as [|rule a IH]; intros s; [reflexivity|].
  cbn [app AddIndexRules]. rewrite bind_assoc.
  apply bind_ext. intros st s1. rewrite bind_assoc.
  apply bind_ext. intros err s2. rewrite bind_assoc.
  apply bind_ext. intros _ s3. apply IH.
Qed.

(** [AddIndexRules] touches neither the roots, nor the heap, nor the trace. *)
Lemma AddIndexRules_frame (r : nat) (rules : list index_Rule) (s s' : State)
  (res : result unit) :
  AddIndexRules r rules s = (res, s') ->
  roots s' = roots s /\ heap s' = heap s /\ trace s' = trace s.
Proof.
  revert s. induction rules as [|rule rules IH]; intros s Hrun.
  { by injection Hrun as _ <-. }
  cbn [AddIndexRules] in Hrun.
  cbv [bind the_indexRules load_root effect check ret fail panic] in Hrun.
  destruct (roots s !! r) as [R|]; cbn in Hrun;
    [|by injection Hrun as _ <-].
  destruct (indexRules R) as [st|]; cbn in Hrun;
    [|by injection Hrun as _ <-].
  destruct (index_Add st rule (world s)) as [[e|] w]; cbn in Hrun;
    [by injection Hrun as _ <-|].
  by apply IH in Hrun.
Qed.

(** X14.  [AddIndexRules] is not atomic: when the rules [pre] are added and the
    next one is refused, the error is returned, the rules after it are not
    tried, and the store is left as the refused call left it, the rules of
    [pre] still added. *)
Theorem AddIndexRules_first_failure (s s1 : State) (r : nat) (R : Root)
  (st : index_Store) (pre post : list index_Rule) (rule : index_Rule)
  (e : error) (w : World) :
  roots s !! r = Some R ->
  indexRules R = Some st ->
  AddIndexRules r pre s = (Ok tt, s1) ->
  index_Add st rule (world s1) = (Some e, w) ->
  AddIndexRules r (pre ++ rule :: post) s =
    (Err e, mkState w (roots s) (heap s) (trace s)).
Proof.
  intros HR Hst Hpre Hadd.
  destruct (AddIndexRules_frame r pre s s1 _ Hpre) as (Hr & Hh & Ht).
  rewrite AddIndexRules_app. unfold bind at 1. rewrite Hpre.
  cbn [AddIndexRules]. unfold bind at 1.
  erewrite the_indexRules_eq; [|by rewrite Hr|exact Hst].
  unfold bind, effect, check, fail. rewrite Hadd. cbn.
  by rewrite Hr, Hh, Ht.
Qed.



(** The loop of [LookupIndexRules] appends to the rules it starts from. *)
Lemma LookupIndexRules_loop_acc (r : nat) (refs : list string) :
  forall (acc : list index_Rule) (s : State),
  LookupIndexRules_loop r refs acc s =
    match LookupIndexRules_loop r refs [] s with
    | (Ok found, s') => (Ok (acc ++ found)%list, s')
    | other => other
    end.
Proof.
  induction refs as [|ref refs IH]; intros acc s.
  { cbn. by rewrite app_nil_r. }
  cbn [LookupIndexRules_loop]. unfold bind at 1 4.
  destruct (the_indexRules r s) as [[st|e|] s1]; try reflexivity.
  unfold bind at 1 3.
  destruct (effect (index_LookupByRef st ref) s1) as [[res|e|] s2];
    try reflexivity.
  unfold bind.
  destruct (unwrap res s2) as [[found|e|] s3]; try reflexivity.
  rewrite (IH (acc ++ found)%list), (IH ([] ++ found)%list).
  destruct (LookupIndexRules_loop r refs [] s3) as [[l|e|] s4];
    try reflexivity.
  by rewrite app_assoc.
Qed.

(** X16.  [LookupIndexRules] on two lists of references, one after the other, is
    the lookup of the first followed by the lookup of the second: the rules
    are concatenated in the order of the references, and an error of the
    second part is the error of the whole, with no rule. *)
Theorem LookupIndexRules_app (s s1 : State) (r : nat) (a b : list string)
  (ra : list index_Rule) :
  LookupIndexRules r a s = (Ok ra, s1) ->
  LookupIndexRules r (a ++ b) s =
    match LookupIndexRules r b s1 with
    | (Ok rb, s2) => (Ok (ra ++ rb)%list, s2)
    | other => other
    end.
Proof.
  unfold LookupIndexRules. revert s ra.
  induction a as [|ref a IH]; intros s ra Ha.
  { cbn in Ha. injection Ha as <- <-. cbn.
    by destruct (LookupIndexRules_loop r b [] s) as [[l|e|] s2]. }
  cbn [app LookupIndexRules_loop] in *. unfold bind at 1 in Ha.
  unfold bind at 1.
  destruct (the_indexRules r s) as [[st|e|] s0]; try discriminate.
  unfold bind at 1 in Ha. unfold bind at 1.
  destruct (effect (index_LookupByRef st ref) s0) as [[res|e|] s2];
    try discriminate.
  unfold bind in Ha |- *.
  destruct (unwrap res s2) as [[found|e|] s3]; try discriminate.
  rewrite LookupIndexRules_loop_acc in Ha |- *.
  destruct (LookupIndexRules_loop r a [] s3) as [[la|e|] s4] eqn:Hla;
    try discriminate.
  injection Ha as <- <-.
  rewrite (IH s3 la Hla).
  destruct (LookupIndexRules_loop r b [] s4) as [[lb|e|] s5]; try reflexivity.
  by rewrite !app_assoc.
Qed.

(** *** [BatchifyPools] *)

Lemma BatchifyPools_loop_run (f : zed_Value -> bool) (l : list Config)
  (recs : list zed_Value) :
  Forall2 (fun c v => zson_Marshal c = inr v) l recs ->
  forall (vals : list zed_Value) (s : State),
    BatchifyPools_loop f l vals s = (Ok (vals ++ List.filter f recs)%list, s).
Proof.
  induction 1 as [|c v l recs Hm _ IH]; intros vals s.
  { cbn. by rewrite app_nil_r. }
  cbn [BatchifyPools_loop List.filter]. rewrite Hm, IH.
  destruct (f v); [|reflexivity]. by rewrite <- app_assoc.
Qed.

(** X17.  [BatchifyPools] lists the pools once.  When every config marshals, the
    result is the marshaled configs that pass the filter, in the order of the
    listing; when one does not marshal, its error is returned, whatever the
    filter says of the configs before it. *)
Theorem BatchifyPools_filter (s : State) (r : nat) (R : Root)
  (st : pools_Store) (f : zed_Value -> bool) (l : list Config) (w : World) :
  roots s !! r = Some R ->
  pools R = Some st ->
  Store_All st (world s) = (inr l, w) ->
  let s' := mkState w (roots s) (heap s) (trace s ++ [EvAll]) in
  (forall recs, Forall2 (fun c v => zson_Marshal c = inr v) l recs ->
     BatchifyPools r f s = (Ok (List.filter f recs), s')) /\
  (forall pre recs c e post,
     l = (pre ++ c :: post)%list ->
     Forall2 (fun c v => zson_Marshal c = inr v) pre recs ->
     zson_Marshal c = inl e ->
     BatchifyPools r f s = (Err e, s')).
Proof.
  intros HR Hst Hall s'.
  assert (Hstart : BatchifyPools r f s = BatchifyPools_loop f l [] s').
  { unfold BatchifyPools, ListPools, bind.
    rewrite (the_pools_eq _ _ _ _ HR Hst). unfold call. by rewrite Hall. }
  rewrite Hstart. split.
  - intros recs Hm. by rewrite (BatchifyPools_loop_run f l recs Hm).
  - intros pre recs c e post -> Hm Hc.
    generalize (@nil zed_Value). clear Hstart Hall.
    induction Hm as [|c0 v0 pre recs Hm0 _ IH]; intros vals.
    + cbn. by rewrite Hc.
    + cbn [app BatchifyPools_loop]. rewrite Hm0. apply IH.
Qed.
End MoreProperties.

(** * Runs on the in-memory lake *)

Import Mem Scenario.

(** The in-memory pool listing is isolated: only a successful [Add] brings a
    name into the journal. *)
Lemma Mem_listing_isolated (name : string) (root : URI) :
  listing_isolated (C := collaborators) tt name root.
Proof.
  unfold listing_isolated, keeps_absent, finds. cbn.
  unfold LookupByName, Now, NewID, CreateTree, OpenTree, RemoveTree, Add,
    entries. cbn.
  repeat split.
  - done.
  - done.
  - done.
  - intros c w H. by destruct (has_tree (ID c) w).
  - intros c w H. destruct (open_fault w); [done|].
    by destruct (has_tree (ID c) w).
  - intros c w H. by destruct (remove_fault w).
  - intros c w e w' Hadd H.
    destruct (add_fault w); [by injection Hadd as _ <-|].
    destruct (by_name (Key c) _); [by injection Hadd as _ <-|discriminate].
Qed.

(** The in-memory [OpenPool] builds the pool around the config it is given. *)
Lemma Mem_OpenPool_config (root : URI) (c : Config) (w w' : memory)
  (P : Pool unit) :
  OpenTree root c w = (inr P, w') -> Config_ P = c.
Proof.
  unfold OpenTree. destruct (open_fault w); [discriminate|].
  destruct (has_tree (ID c) w); [|discriminate].
  by intros [= <- _].
Qed.

(** C1, on a magic file with the expected magic string and version 4. *)
Lemma Open_unsupported_version_witness :
  Open "lake" newer_version =
    (Err (errUnsupportedVersion 4),
     mkState (lake_with_magic [inr (VMagic "ZED LAKE" 4)]) [new_root] []
       [EvGet "lake/lake.zng"]) /\
  Error quote text (errUnsupportedVersion 4) =
    "unsupported lake version: found version 4 while expecting 3".
Proof.
  apply (@Open_unsupported_version collaborators newer_version "lake"
           [inr (VMagic "ZED LAKE" 4)]
           (lake_with_magic [inr (VMagic "ZED LAKE" 4)])
           (VMagic "ZED LAKE" 4) (mkLakeMagic "ZED LAKE" 4));
    [reflexivity | reflexivity | reflexivity | reflexivity
    | vm_compute; discriminate].
Defined.

(** C1 as stated fails.  The magic file holds one record, with version 4
    and the magic string "ZED POND": [Open] fails with the error of the magic
    check, and not with the error of the version check. *)
Lemma Open_other_magic_and_version :
  zson_UnmarshalZNG (Some (VMagic "ZED POND" 4)) =
    inr (mkLakeMagic "ZED POND" 4) /\
  4 <> Version /\
  fst (Open "lake" other_magic) = Err (errBadMagic "ZED POND") /\
  (forall found,
     fst (Open "lake" other_magic) <> Err (errUnsupportedVersion found)) /\
  String.prefix "unsupported lake version"
    (Error quote text (errBadMagic "ZED POND")) = false.
Proof.
  split; [reflexivity|]. split; [discriminate|]. split; [reflexivity|].
  split; [|reflexivity]. intros found. vm_compute. discriminate.
Qed.

(** C2, on a magic file that holds the magic record twice. *)
Lemma Open_corrupt_witness :
  exists e,
    Open "lake" two_records =
      (Err e,
       mkState
         (lake_with_magic
            [inr (VMagic "ZED LAKE" 3); inr (VMagic "ZED LAKE" 3)])
         [new_root] [] [EvGet "lake/lake.zng"]) /\
    ((exists v : value, e = errSecondValue (String_ v)) \/
     (exists found, e = errBadMagic found)) /\
    String.prefix "corrupt lake version file" (Error quote text e) = true.
Proof.
  apply (@Open_corrupt collaborators two_records "lake"
           [inr (VMagic "ZED LAKE" 3); inr (VMagic "ZED LAKE" 3)]
           (lake_with_magic
              [inr (VMagic "ZED LAKE" 3); inr (VMagic "ZED LAKE" 3)]));
    [reflexivity|].
  left. by exists (VMagic "ZED LAKE" 3), (VMagic "ZED LAKE" 3), [].
Defined.

(** C3, on the empty object store. *)
Lemma Create_order_witness :
  Create "lake" fresh =
    (Ok 0%nat,
     mkState
       (mkMemory [("lake/lake.zng", magic_record)] true (Some []) true []
          None None None 1000 0)
       [loaded_root] []
       [EvGet "lake/lake.zng"; EvPoolsCreateStore "lake/pools";
        EvIndexCreateStore "lake/index_rules"; EvGet "lake/lake.zng";
        EvPutIfNotExists "lake/lake.zng" magic_record]).
Proof.
  apply (@Create_order collaborators fresh "lake"
           (Sentinel fs_ErrNotExist) (Sentinel fs_ErrNotExist)
           empty (with_pools empty (Some []))
           (with_rules (with_pools empty (Some [])) true)
           (with_rules (with_pools empty (Some [])) true)
           (mkMemory [("lake/lake.zng", magic_record)] true (Some []) true []
              None None None 1000 0)
           tt tt magic_record); reflexivity.
Defined.

(** C3 as stated fails.  On the empty object store [Create] succeeds, and
    the write of the magic file is its fifth call, after the creation of the
    pools store (its second) and of the index-rules store (its third). *)
Lemma Create_writes_magic_last :
  fst (Create "lake" fresh) = Ok 0%nat /\
  position (writes "lake/lake.zng") (trace (snd (Create "lake" fresh))) =
    Some 4%nat /\
  position creates_pools_store (trace (snd (Create "lake" fresh))) =
    Some 1%nat /\
  position creates_rules_store (trace (snd (Create "lake" fresh))) =
    Some 2%nat /\
  ~ (exists i j,
       position (writes "lake/lake.zng")
         (trace (snd (Create "lake" fresh))) = Some i /\
       position creates_pools_store
         (trace (snd (Create "lake" fresh))) = Some j /\
       (i < j)%nat).
Proof.
  repeat (split; [reflexivity|]).
  intros (i & j & Hi & Hj & Hlt).
  vm_compute in Hi, Hj. injection Hi as <-. injection Hj as <-. lia.
Qed.

(** C7, on a backend without conditional put: the fallback to [Put]. *)
Lemma writeLakeMagic_put_witness :
  writeLakeMagic 0 new_on_plain =
    (Ok tt,
     mkState plain_written [new_root] []
       [EvGet "lake/lake.zng";
        EvPutIfNotExists "lake/lake.zng" magic_record;
        EvPut "lake/lake.zng" magic_record]).
Proof.
  apply (@writeLakeMagic_put collaborators new_on_plain plain_after_get
           0%nat new_root (Sentinel fs_ErrNotExist) magic_record
           (Some (Sentinel storage_ErrNotSupported)) plain_backend);
    reflexivity.
Defined.

(** C8, on the pool that was cached as "a" and then renamed: the pool
    returned has the name of the store, the cached pool keeps the old one. *)
Lemma openPool_cached_witness :
  openPool 0 config_HEAD with_HEAD =
    (Ok 1%nat,
     mkState (world with_HEAD) [root_with_a]
       [mkPool config_a tt; mkPool config_HEAD tt] (trace with_HEAD)) /\
  OpenPool 0 "id0" with_HEAD =
    (Ok 1%nat,
     mkState (world with_HEAD) [root_with_a]
       [mkPool config_a tt; mkPool config_HEAD tt]
       (trace with_HEAD ++ [EvLookupByID "id0"])).
Proof.
  destruct (@openPool_cached collaborators with_HEAD 0%nat root_with_a
              config_HEAD 0%nat [("id0", 0%nat)] (mkPool config_a tt))
    as (Hopen & _ & _ & _ & Hstore); try reflexivity.
  split; [exact Hopen|].
  exact (Hstore tt "id0" (world with_HEAD) eq_refl eq_refl).
Defined.

(** C5, on the lake that has the pool "a". *)
Lemma CreatePool_exists_witness :
  CreatePool 0 "a" order_Nil 0 0 with_a =
    (Err (errPoolExists "a"),
     mkState (world with_a) (roots with_a) (heap with_a)
       (trace with_a ++ [EvLookupByName "a"])) /\
  errors_Is (errPoolExists "a") pools_ErrExists = true.
Proof.
  apply (@CreatePool_exists collaborators with_a 0%nat root_with_a tt "a"
           config_a (world with_a) order_Nil 0 0);
    [discriminate | reflexivity | reflexivity | reflexivity].
Defined.

(** C5 as stated fails.  After the pool "a" is renamed to HEAD a pool of
    that name exists, and [CreatePool] with the name HEAD fails with the error
    of the name check, which does not wrap [pools.ErrExists]. *)
Lemma CreatePool_HEAD_taken :
  fst (RenamePool 0 "id0" "HEAD" with_a) = Ok tt /\
  finds (C := collaborators) tt "HEAD" (world with_HEAD) = Some config_HEAD /\
  fst (CreatePool 0 "HEAD" order_Nil 0 0 with_HEAD) =
    Err (errReservedName "HEAD") /\
  errors_Is (errReservedName "HEAD") pools_ErrExists = false.
Proof. repeat split. Qed.

(** C6, on a name that is free. *)
Lemma CreatePool_multiple_keys_witness :
  CreatePool 0 "b" two_keys 0 0 with_a =
    (Err errMultipleKeys,
     mkState (world with_a) (roots with_a) (heap with_a)
       (trace with_a ++ [EvLookupByName "b"])).
Proof.
  apply (@CreatePool_multiple_keys collaborators with_a 0%nat root_with_a tt
           "b" None (world with_a) two_keys 0 0);
    [reflexivity | reflexivity | reflexivity | cbn; lia].
Defined.

(** C6 as stated fails.  With two keys and the name of an existing pool,
    [CreatePool] fails with the error that wraps [pools.ErrExists], not with
    the error of the key check. *)
Lemma CreatePool_multiple_keys_taken :
  (1 < length (Keys two_keys))%nat /\
  fst (CreatePool 0 "a" two_keys 0 0 with_a) = Err (errPoolExists "a") /\
  errors_Is (errPoolExists "a") pools_ErrExists = true /\
  fst (CreatePool 0 "a" two_keys 0 0 with_a) <> Err errMultipleKeys.
Proof.
  split; [cbn; lia|]. split; [reflexivity|]. split; [reflexivity|].
  vm_compute. discriminate.
Qed.

(** C9 as stated fails.  On a store that is down once the tree of the pool
    is in place, [Add] fails and [CreatePool] returns its error; the
    package-level [RemovePool] is called, fails as well, and the tree of the
    pool stays in the store. *)
Lemma CreatePool_undo_removal_fails :
  fst (CreatePool 0 "a" order_Nil 0 0 store_down) = Err disk_error /\
  position adds_entry (trace (snd (CreatePool 0 "a" order_Nil 0 0 store_down))) =
    Some 5%nat /\
  position removes_pool
    (trace (snd (CreatePool 0 "a" order_Nil 0 0 store_down))) = Some 6%nat /\
  has_tree "id0" (world (snd (CreatePool 0 "a" order_Nil 0 0 store_down))) =
    true /\
  finds (C := collaborators) tt "a"
    (world (snd (CreatePool 0 "a" order_Nil 0 0 store_down))) = None.
Proof. repeat split. Qed.

(** C9, on a lake where the package-level [OpenPool] fails, and on one
    where [Add] fails. *)
Lemma CreatePool_undo_witness :
  (CreatePool 0 "a" order_Nil 0 0 open_fails =
     (Err disk_error,
      mkState after_open_fault [loaded_root] []
        [EvLookupByName "a"; EvNow; EvNewID; EvCreatePool "lake" config_a;
         EvOpenPool "lake" config_a; EvRemovePool "lake" config_a]) /\
   finds (C := collaborators) tt "a" after_open_fault = None) /\
  (CreatePool 0 "a" order_Nil 0 0 add_fails =
     (Err disk_error,
      mkState after_add_fault [root_with_a] [mkPool config_a tt]
        [EvLookupByName "a"; EvNow; EvNewID; EvCreatePool "lake" config_a;
         EvOpenPool "lake" config_a; EvAdd config_a;
         EvRemovePool "lake" config_a]) /\
   finds (C := collaborators) tt "a" after_add_fault = None).
Proof.
  split.
  - destruct (@CreatePool_undo collaborators open_fails
                (configured open_fails) (opened open_fails) 0%nat loaded_root
                tt "a" world_open_fault (world (tree_made open_fails))
                order_Nil 0 0 config_a (Err disk_error)) as [H _];
      try reflexivity.
    + discriminate.
    + cbn; lia.
    + apply Mem_listing_isolated.
    + destruct (H disk_error eq_refl) as (H1 & _ & H3).
      split; [exact H1 | exact H3].
  - destruct (@CreatePool_undo collaborators add_fails
                (configured add_fails) (opened add_fails) 0%nat loaded_root
                tt "a" world_add_fault (world (tree_made add_fails))
                order_Nil 0 0 config_a (Ok 0%nat)) as [_ H];
      try reflexivity.
    + discriminate.
    + cbn; lia.
    + apply Mem_listing_isolated.
    + destruct (H 0%nat disk_error (world (opened add_fails)) eq_refl eq_refl)
        as (H1 & H3).
      split; [exact H1 | exact H3].
Defined.

(** C10, on the created lake: a pool made with the nil sort key and zero
    threshold and seek stride. *)
Lemma CreatePool_nil_sort_key_witness :
  CreatePool 0 "a" order_Nil 0 0 created = (Ok 0%nat, with_a) /\
  SortKey_ config_a = mkSortKey Desc [["ts"]] /\
  Threshold config_a = 524288000 /\
  SeekStride config_a = 65536 /\
  heap with_a !! 0%nat = Some (mkPool config_a tt).
Proof.
  destruct (@CreatePool_nil_sort_key collaborators created (configured created)
              (opened created) 0%nat loaded_root tt "a" (world created)
              (world (tree_made created)) (world with_a) order_Nil 0 0
              config_a 0%nat)
    as (_ & Hrun & Hkey & _ & _ & _); try reflexivity.
  - discriminate.
  - intros w P w'. apply Mem_OpenPool_config.
  - split; [exact Hrun|]. split; [exact Hkey|]. repeat split.
Defined.

(** * More runs on the in-memory lake *)

Import Cases.

(** X3, on the world without a lake. *)
Lemma Open_get_fails_witness :
  Open "lake" fresh = (Err (errLakeNotExist "lake"), open_failed) /\
  errors_Is (errLakeNotExist "lake") lake_ErrNotExist = true /\
  errors_Is (errLakeNotExist "lake") fs_ErrNotExist = false /\
  Error quote text (errLakeNotExist "lake") = "lake: lake does not exist".
Proof.
  apply (@Open_get_fails collaborators fresh "lake" (Sentinel fs_ErrNotExist)
           empty).
  reflexivity.
Defined.

(** X4, on a loaded root of a lake whose magic file is in place. *)
Lemma writeLakeMagic_exists_witness :
  writeLakeMagic 0 a_lake = (Err (ErrorsNew "lake already exists"), a_lake_read) /\
  errors_Is (ErrorsNew "lake already exists") lake_ErrExist = false /\
  Error quote text (ErrorsNew "lake already exists") =
    Error quote text (Sentinel lake_ErrExist).
Proof.
  apply (@writeLakeMagic_exists collaborators a_lake 0%nat loaded_root
           magic_record (lake_with_magic magic_record) (VMagic "ZED LAKE" 3));
    reflexivity.
Defined.

(** X5, on a magic file with two records. *)
Lemma CreateOrOpen_broken_lake_witness :
  exists e,
    CreateOrOpen "lake" two_records = (Err e, two_records_read) /\
    Open "lake" two_records = CreateOrOpen "lake" two_records /\
    errors_Is e lake_ErrNotExist = false.
Proof.
  apply (@CreateOrOpen_broken_lake collaborators two_records "lake"
           [inr (VMagic "ZED LAKE" 3); inr (VMagic "ZED LAKE" 3)]
           (lake_with_magic
              [inr (VMagic "ZED LAKE" 3); inr (VMagic "ZED LAKE" 3)])).
  - reflexivity.
  - left. exists (VMagic "ZED LAKE" 3), (VMagic "ZED LAKE" 3), []. reflexivity.
Defined.

(** X6, on the world without a lake. *)
Lemma CreateOrOpen_creates_witness :
  CreateOrOpen "lake" fresh = (Ok 1%nat, created_or_opened).
Proof.
  apply (@CreateOrOpen_creates collaborators fresh "lake"
           (Sentinel fs_ErrNotExist) (Sentinel fs_ErrNotExist)
           (Sentinel fs_ErrNotExist) empty empty
           (with_pools empty (Some []))
           (with_rules (with_pools empty (Some [])) true)
           (with_rules (with_pools empty (Some [])) true)
           (world created) tt tt magic_record); reflexivity.
Defined.

(** X7, on a lake that has its magic file and no journal: the journals
    are created, and the call fails. *)
Lemma CreateOrOpen_missing_journal_witness :
  fst (Open "lake" (start half_lake)) = Err (errLakeNotExist "lake") /\
  fst (CreateOrOpen "lake" (start half_lake)) =
    Err (ErrorsNew "lake already exists") /\
  world (snd (CreateOrOpen "lake" (start half_lake))) = half_lake_with_journals.
Proof.
  destruct (@CreateOrOpen_missing_journal collaborators (start half_lake)
              "lake" magic_record magic_record magic_record
              (VMagic "ZED LAKE" 3) (VMagic "ZED LAKE" 3) (VMagic "ZED LAKE" 3)
              (Sentinel fs_ErrNotExist) (Sentinel fs_ErrNotExist)
              half_lake half_lake half_lake half_lake
              (with_pools half_lake (Some [])) half_lake_with_journals
              half_lake_with_journals tt tt) as [H1 H2]; try reflexivity.
  rewrite H1, H2. repeat split.
Defined.

(** X18, on the created lake. *)
Lemma Create_exists_witness :
  Create "lake" created = (Err (errLakeExists "lake"), second_open).
Proof.
  apply (@Create_exists collaborators created "lake" magic_record
           (world created) (world created) (world created)
           (VMagic "ZED LAKE" 3) tt tt); reflexivity.
Defined.

(** X9, on the created lake and the name "a". *)
Lemma CreatePool_calls_witness :
  exists (tr : list event) (res : result nat) (s' : State),
    CreatePool 0 "a" order_Nil 0 0 created = (res, s') /\
    trace s' = (trace created ++ tr)%list /\
    (forall c, In (EvAdd c) tr ->
       "a" <> "HEAD" /\ Name c = "a" /\
       length (Keys (SortKey_ c)) = 1%nat /\
       exists post,
         tr = ([EvLookupByName "a"; EvNow; EvNewID;
                EvCreatePool "lake" c] ++ post)%list) /\
    (forall p, res = Ok p -> exists c pre, tr = (pre ++ [EvAdd c])%list) /\
    (forall root c, In (EvRemovePool root c) tr -> exists e, res = Err e).
Proof.
  apply (@CreatePool_calls collaborators created 0%nat loaded_root tt "a"
           order_Nil 0 0); reflexivity.
Defined.

(** X10, on the lake with the pool "a". *)
Lemma OpenPool_fresh_witness :
  exists (res : result nat) (s' : State),
    OpenPool 0 "id0" with_a = (res, s') /\
    (forall q P, heap with_a !! q = Some P -> heap s' !! q = Some P) /\
    (forall p, res = Ok p ->
       p = length (heap with_a) /\
       length (heap s') = S (length (heap with_a))) /\
    (forall e, res = Err e -> heap s' = heap with_a) /\
    (forall e w, LookupByID tt "id0" (world with_a) = (inl e, w) ->
       res = Err e /\ roots s' = roots with_a /\
       trace s' = (trace with_a ++ [EvLookupByID "id0"])%list).
Proof.
  apply (@OpenPool_fresh collaborators with_a 0%nat root_with_a tt "id0");
    reflexivity.
Defined.

(** * Runs on the in-memory lake with index rules *)

Import MemX.

(** X11, on the lake with the pool "a": the empty name, an identifier of
    no pool, the name of the pool, and a name of no pool. *)
Lemma PoolID_resolution_witness :
  PoolID 0 "" with_a = (Err (ErrorsNew "no pool name given"), with_a) /\
  PoolID 0 "id5" with_a = (Ok "id5", with_a) /\
  PoolID 0 "a" with_a = (Ok "id0", a_looked_up) /\
  PoolID 0 "b" with_a = (Err (errPoolNotFound "b"), b_looked_up).
Proof.
  destruct (@PoolID_resolution collaborators more with_a 0%nat root_a tt)
    as (H1 & H2 & H3); [reflexivity..|].
  split; [exact H1|]. split; [by apply H2|].
  split.
  - by apply (H3 "a" (ErrorsNew "invalid identifier")).
  - by apply (H3 "b" (ErrorsNew "invalid identifier")).
Defined.

(** X12, on a scan of the pool "a". *)
Lemma Root_SortKey_total_witness :
  exists (k : SortKey) (s' : State),
    Root_SortKey 0 (PoolScan "id0") with_a = (Ok k, s') /\
    roots s' = roots with_a /\ heap s' = heap with_a /\
    (k = order_Nil \/
     exists id c w,
       Store_LookupByID tt id (world with_a) = (inr c, w) /\ k = SortKey_ c) /\
    (PoolScan "id0" = OtherOp \/
     (exists id, PoolScan "id0" = CommitMetaScan id false) ->
     k = order_Nil /\ s' = with_a).
Proof.
  apply (@Root_SortKey_total collaborators with_a 0%nat root_a tt
           (PoolScan "id0")); reflexivity.
Defined.

(** X13, on the removal of the pool "a". *)
Lemma RemovePool_entry_first_witness :
  RemovePool 0 "id0" with_a = (Ok tt, a_removed).
Proof.
  destruct (@RemovePool_entry_first collaborators more with_a 0%nat root_a tt
              "id0" config_a (world with_a) entry_removed None)
    as [_ H]; [reflexivity..|].
  exact (H eq_refl).
Defined.

(** X14, on four rules of which the third repeats the first: two rules
    stay added. *)
Lemma AddIndexRules_first_failure_witness :
  AddIndexRules 0 [rule1; rule2; rule1; rule3] created =
    (Err ErrRuleExists, with_two_rules) /\
  snd (world with_two_rules) = [rule1; rule2].
Proof.
  split; [|reflexivity].
  apply (@AddIndexRules_first_failure collaborators more created
           with_two_rules 0%nat root_plain tt [rule1; rule2] [rule3] rule1
           ErrRuleExists (world with_two_rules)); reflexivity.
Defined.


(** X16, on the two names of the three rules. *)
Lemma LookupIndexRules_app_witness :
  LookupIndexRules 0 ["by_ip"; "by_port"] with_three_rules =
    (Ok [rule1; rule2; rule3], with_three_rules).
Proof.
  apply (@LookupIndexRules_app collaborators more with_three_rules
           with_three_rules 0%nat ["by_ip"] ["by_port"] [rule1; rule2]).
  reflexivity.
Defined.

(** X17, on the pools "a" and "b" and a filter that drops "a". *)
Lemma BatchifyPools_filter_witness :
  BatchifyPools 0 not_a with_a_b = (Ok [VOther "b"], pools_listed).
Proof.
  destruct (@BatchifyPools_filter collaborators more with_a_b 0%nat
              root_a_b tt not_a [config_a; config_b] (world with_a_b))
    as [H _]; [reflexivity..|].
  apply (H [VOther "a"; VOther "b"]).
  repeat constructor.
Defined.
